(** * GARCH-diffusion conditional Monte-Carlo (pyfeng/garch.py)

    A shallow embedding of [GarchCondMC.vol_paths] and
    [GarchCondMC.cond_spot_sigma].

    Conventions of the embedding.
    - A float64 is idealised as a real number of [R]; rounding, overflow and
      the IEEE special values (inf, nan) are outside the model.  Where a
      numpy expression divides elementwise by zero the model carries the
      term [x / 0] of [R], which stands for no float; the theorems that give
      the value of a result assume what keeps the divisors non-zero and the
      arguments of [log] and [sqrt] in their domains.
    - A Python exception is a value [Raise e] of the type [result].  Numpy's
      elementwise operations never raise on a zero divisor (they warn), but
      the quotient of two Python scalars does ([ZeroDivisionError]).  The
      [OverflowError] of a Python scalar power that leaves the float range
      ([self.vov ** 2], [self.rho ** 2]) belongs to the magnitudes the
      idealisation leaves out: a theorem that says that nothing is raised
      assumes [pow2_in_range].
    - Whether a float64 result is strictly positive or zero (underflow of
      [exp]) is not expressible over [R]; no theorem of this file asserts
      strict positivity of a computed float.
    - A 1-D array is a [list R]; a 2-D array is the list of its rows.
    - The random generator of the base class is threaded explicitly. *)

From Stdlib Require Import Reals Lra Lia ZArith.
From stdpp Require Import base list.

Local Open Scope R_scope.

(** ** Python exceptions *)

Inductive exn : Set := ZeroDivisionError | IndexError | ValueError.

Inductive result (A : Type) : Type :=
| Ok (a : A)
| Raise (e : exn).
Arguments Ok {A} a.
Arguments Raise {A} e.

Definition bind {A B} (m : result A) (k : A -> result B) : result B :=
  match m with
  | Ok a => k a
  | Raise e => Raise e
  end.

Notation "x <- m ;; k" := (bind m (fun x => k))
  (at level 20, m at level 99, k at level 200, only parsing).
Notation "' p <- m ;; k" := (bind m (fun x => let 'p := x in k))
  (at level 20, p pattern, m at level 99, k at level 200, only parsing).

(** [for x in xs: s = body(s, x)], stopping at the first exception. *)
Fixpoint for_each {S X} (body : S -> X -> result S) (xs : list X) (s : S)
  : result S :=
  match xs with
  | [] => Ok s
  | x :: xs' => s' <- body s x ;; for_each body xs' s'
  end.

(** ** The numpy operations the module uses *)

Module Np.

Abbreviation vec := (list R).
Abbreviation matrix := (list (list R)).

(** [np.ceil], as an integer. *)
Definition ceil (x : R) : Z := (1 - up (- x))%Z.

(** [np.arange(start, stop)] with the default step 1:
    [ceil(stop - start)] values [start + k]. *)
Definition arange (start stop : R) : vec :=
  (fun k => start + INR k) <$> seq 0 (Z.to_nat (ceil (stop - start))).

(** [np.zeros((r, c))]. *)
Definition zeros (r c : nat) : matrix := replicate r (replicate c 0).

(** Number of columns of a 2-D array given by its rows. *)
Definition ncols (m : matrix) : nat :=
  match m with
  | [] => 0%nat
  | r :: _ => length r
  end.

(** [m[i, :]] for [0 <= i]. *)
Definition row (m : matrix) (i : nat) : result vec :=
  match m !! i with
  | Some r => Ok r
  | None => Raise IndexError
  end.

(** [m[-1, :]]. *)
Definition last_row (m : matrix) : result vec :=
  match last m with
  | Some r => Ok r
  | None => Raise IndexError
  end.

(** An elementwise binary operation on two 1-D arrays, with numpy's
    broadcasting: equal lengths, or one of the two of length 1. *)
Definition broadcast2 (f : R -> R -> R) (a b : vec) : result vec :=
  if decide (length a = length b) then Ok (zip_with f a b)
  else match a, b with
       | [x], _ => Ok (f x <$> b)
       | _, [y] => Ok ((fun x => f x y) <$> a)
       | _, _ => Raise ValueError
       end.

Definition add := broadcast2 Rplus.
Definition sub := broadcast2 Rminus.

(** [m[i, :] = v] for a 1-D array [v]: [v] has the length of the row, or
    length 1 and is repeated. *)
Definition set_row (m : matrix) (i : nat) (v : vec) : result matrix :=
  match m !! i with
  | None => Raise IndexError
  | Some r =>
      if decide (length v = length r) then Ok (<[i := v]> m)
      else match v with
           | [x] => Ok (<[i := replicate (length r) x]> m)
           | _ => Raise ValueError
           end
  end.

(** [m[i, :] = x] for a scalar [x]. *)
Definition fill_row (m : matrix) (i : nat) (x : R) : result matrix :=
  match m !! i with
  | None => Raise IndexError
  | Some r => Ok (<[i := replicate (length r) x]> m)
  end.

(** Elementwise functions on a 2-D array. *)
Definition map2d (f : R -> R) (m : matrix) : matrix :=
  (fun r : vec => f <$> r) <$> m.

(** [m[i, j]], when in range. *)
Definition entry (m : matrix) (i j : nat) : option R :=
  match m !! i with
  | Some r => r !! j
  | None => None
  end.

(** Column [j] of a 2-D array (the samples along axis 0). *)
Definition column (m : matrix) (j : nat) : vec :=
  (fun r : vec => nth j r 0) <$> m.

End Np.

(** ** The model object *)

(** The scalar attributes that [GarchCondMC] inherits from its base classes.
    They hold what the constructor was given: Python numbers. *)
Record GarchCondMC : Type := mkGarchCondMC {
  sigma : R;
  vov : R;
  rho : R;
  mr : R;
  theta : R;
  dt : R;
  n_path : nat
}.

(** A Python scalar [x] whose square stays in the float64 range, so that
    [x ** 2] raises no [OverflowError]: [10 ^ 154] squared is below the
    largest float. *)
Definition pow2_in_range (x : R) : Prop := Rabs x <= 10 ^ 154.

(** [x / y] on two Python scalars. *)
Definition py_truediv (x y : R) : result R :=
  if Req_dec_T y 0 then Raise ZeroDivisionError else Ok (x / y).

Section Garch.

(** The collaborators from the base classes and from scipy. *)
Variable rng : Type.
(** [self._bm_incr(tobs, cum)]: draws from the generator. *)
Variable _bm_incr : GarchCondMC -> rng -> list R -> bool -> list (list R) * rng.
(** [self.tobs(texp)]. *)
Variable self_tobs : GarchCondMC -> R -> list R.
(** [scipy.integrate.simps(y, dx=dx)] on the samples of one path. *)
Variable simps : list R -> R -> R.

Variable self : GarchCondMC.

(** The body of the loop of [vol_paths], lines 46-55. *)
Definition vol_paths_step (rn_norm : list (list R)) (w_t : list (list R)) (i : nat)
  : result (list (list R)) :=
  w_prev <- Np.row w_t (i - 1) ;;
  let drift : list R :=
    (fun w => (mr self * theta self * exp (- w) - mr self - vov self ^ 2 / 2) * dt self)
      <$> w_prev in
  s <- Np.add w_prev drift ;;
  z <- Np.row rn_norm (i - 1) ;;
  let noise : list R := (fun x => vov self * sqrt (dt self) * x) <$> z in
  rhs <- Np.add s noise ;;
  Np.set_row w_t i rhs.

Definition vol_paths (g : rng) (tobs : list R) : result (list (list R) * rng) :=
  let n_dt := length tobs in
  let n_path := n_path self in
  let '(rn_norm, g') := _bm_incr self g (Np.arange 1 (INR n_dt + 0.1)) false in
  let w_t := Np.zeros (n_dt + 1) n_path in
  w_t <- Np.fill_row w_t 0 (2 * ln (sigma self)) ;;
  w_t <- for_each (vol_paths_step rn_norm) (seq 1 n_dt) w_t ;;
  Ok (Np.map2d exp w_t, g').

(** [scint.simps(y, dx=dx, axis=0)]: one integral per column. *)
Definition simps_axis0 (y : list (list R)) (dx : R) : list R :=
  (fun j => simps (Np.column y j) dx) <$> seq 0 (Np.ncols y).

(** The local variables of [cond_spot_sigma] after line 69. *)
Record locals : Type := mkLocals {
  rhoc : R;
  n_dt : nat;
  var_paths : list (list R);
  sigma_paths : list (list R);
  sigma_final : list R;
  int_sigma : list R;
  int_var : list R;
  int_sigma_inv : list R
}.

(** Lines 61-69 of [cond_spot_sigma]. *)
Definition cond_spot_sigma_locals (g : rng) (texp : R) : result (locals * rng) :=
  let rhoc := sqrt (1 - rho self ^ 2) in
  let tobs := self_tobs self texp in
  let n_dt := length tobs in
  '(var_paths, g') <- vol_paths g tobs ;;
  let sigma_paths := Np.map2d sqrt var_paths in
  sigma_final <- Np.last_row sigma_paths ;;
  let int_sigma : list R :=
    (fun s => s * texp / INR n_dt) <$> simps_axis0 sigma_paths 1 in
  let int_var : list R :=
    (fun s => s * texp / INR n_dt) <$> simps_axis0 var_paths 1 in
  let int_sigma_inv : list R :=
    (fun s => s * texp / INR n_dt)
      <$> simps_axis0 (Np.map2d (fun x => 1 / x) sigma_paths) 1 in
  Ok (mkLocals rhoc n_dt var_paths sigma_paths sigma_final
        int_sigma int_var int_sigma_inv, g').

(** Lines 71-79: the operands are evaluated left to right. *)
Definition fwd_cond_of (L : locals) : result (list R) :=
  let a : list R := (fun x => 2 * (x - sigma self) / vov self) <$> sigma_final L in
  let b : list R := (fun x => mr self * theta self * x / vov self) <$> int_sigma_inv L in
  ab <- Np.sub a b ;;
  q <- py_truediv (mr self) (vov self) ;;
  let c : list R := (fun x => (q + vov self / 4) * x) <$> int_sigma L in
  abc <- Np.add ab c ;;
  let d : list R := (fun x => rho self * x / 2) <$> int_var L in
  e <- Np.sub abc d ;;
  Ok ((fun x => exp (rho self * x)) <$> e).

Definition cond_spot_sigma (g : rng) (texp : R)
  : result ((list R * list R) * rng) :=
  '(L, g') <- cond_spot_sigma_locals g texp ;;
  fwd_cond <- fwd_cond_of L ;;
  let sigma_cond : list R := (fun x => rhoc L * sqrt x) <$> int_var L in
  Ok ((fwd_cond, sigma_cond), g').

End Garch.

Arguments vol_paths {rng} _bm_incr self g tobs.
Arguments cond_spot_sigma_locals {rng} _bm_incr self_tobs simps self g texp.
Arguments cond_spot_sigma {rng} _bm_incr self_tobs simps self g texp.

(** ** The formulas of the specification *)

Section Spec.

Variable self : GarchCondMC.

(** One step of the discretised log-variance equation. *)
Definition w_next (w z : R) : R :=
  w + (mr self * theta self * exp (- w) - mr self - vov self ^ 2 / 2) * dt self
    + vov self * sqrt (dt self) * z.

(** Entry [j] of row [i] of the drawn increments, 0 outside. *)
Definition incr (Z : list (list R)) (i j : nat) : R := nth j (nth i Z []) 0.

(** The log-variance of path [j] after [i] steps: [w_0 = 2 log sigma] and
    [w_i] from [w_{i-1}] with the [i]-th row of increments. *)
Fixpoint w_spec (Z : list (list R)) (i j : nat) : R :=
  match i with
  | O => 2 * ln (sigma self)
  | S k => w_next (w_spec Z k j) (incr Z k j)
  end.

(** The [(n+1, n_path)] matrix of the log-variances. *)
Definition w_rows (Z : list (list R)) (n : nat) : list (list R) :=
  (fun i => (fun j => w_spec Z i j) <$> seq 0 (n_path self)) <$> seq 0 (n + 1).

(** The conditional forward multiplier of one path. *)
Definition fwd_cond_spec (sigma_final int_sigma int_var int_sigma_inv : R) : R :=
  exp (rho self
       * (2 * (sigma_final - sigma self) / vov self
          - mr self * theta self * int_sigma_inv / vov self
          + (mr self / vov self + vov self / 4) * int_sigma
          - rho self * int_var / 2)).

End Spec.

(** The contract of the increment generator: one row per requested time,
    one column per path. *)
Definition bm_shape {rng} (_bm_incr : GarchCondMC -> rng -> list R -> bool -> list (list R) * rng)
  (self : GarchCondMC) : Prop :=
  forall g ts c,
    length (_bm_incr self g ts c).1 = length ts /\
    Forall (fun r : list R => length r = n_path self) (_bm_incr self g ts c).1.

(** The invariant of the loop of [vol_paths] after [k] steps, for the
    increments [Z] and [n] steps in all: the shape of [w_t] is unchanged and
    its rows [0..k] hold the log-variances. *)
Definition loop_inv (self : GarchCondMC) (Z : list (list R)) (n k : nat)
  (w_t : list (list R)) : Prop :=
  length w_t = (n + 1)%nat /\
  Forall (fun r : list R => length r = n_path self) w_t /\
  forall i, (i <= k)%nat ->
    w_t !! i = Some ((fun j => w_spec self Z i j) <$> seq 0 (n_path self)).

(** The length conditions under which the array operations of lines 71-79
    of [cond_spot_sigma] broadcast trivially. *)
Definition aligned (L : locals) : Prop :=
  length (int_sigma_inv L) = length (sigma_final L) /\
  length (int_sigma L) = length (sigma_final L) /\
  length (int_var L) = length (sigma_final L).

(** The locals of [cond_spot_sigma] for the expiry [texp], a grid of [n]
    points and the increments [Z], written out from the log-variances. *)
Definition locals_at (simps : list R -> R -> R) (self : GarchCondMC)
  (Z : list (list R)) (n : nat) (texp : R) : locals :=
  let V := Np.map2d exp (w_rows self Z n) in
  mkLocals (sqrt (1 - rho self ^ 2)) n V (Np.map2d sqrt V)
    ((fun j => sqrt (exp (w_spec self Z n j))) <$> seq 0 (n_path self))
    ((fun s => s * texp / INR n) <$> simps_axis0 simps (Np.map2d sqrt V) 1)
    ((fun s => s * texp / INR n) <$> simps_axis0 simps V 1)
    ((fun s => s * texp / INR n)
       <$> simps_axis0 simps (Np.map2d (fun x => 1 / x) (Np.map2d sqrt V)) 1).

(** What [vol_paths] draws for a grid of length [n]: the increments and the
    next state of the generator. *)
Definition drawn {rng} (_bm_incr : GarchCondMC -> rng -> list R -> bool -> list (list R) * rng)
  (self : GarchCondMC) (g : rng) (n : nat) : list (list R) * rng :=
  _bm_incr self g (Np.arange 1 (INR n + 0.1)) false.

(** The variance matrix of an outcome of [vol_paths], without the generator. *)
Definition variance_of {rng} (r : result (list (list R) * rng))
  : result (list (list R)) :=
  '(V, _) <- r ;; Ok V.

(** ** A concrete instance

    A counter stands for the generator and its parity decides the draws,
    the grid has two points, and the integral is the composite Simpson rule
    on an odd number of samples. *)

Definition demo_bm_incr (self : GarchCondMC) (g : nat) (ts : list R) (cum : bool)
  : list (list R) * nat :=
  ((fun _ : R => replicate (n_path self) (INR (g mod 2))) <$> ts, S g).

Definition demo_tobs (self : GarchCondMC) (texp : R) : list R :=
  [texp / 2; texp].

Fixpoint demo_simps (y : list R) (dx : R) : R :=
  match y with
  | y0 :: y1 :: ((y2 :: _) as rest) => dx / 3 * (y0 + 4 * y1 + y2) + demo_simps rest dx
  | _ => 0
  end.

(** [mr=0, theta=0, vov=0.01, sigma=0.2, rho=-0.5], two paths, [dt = 0.5]. *)
Definition demo_self : GarchCondMC := mkGarchCondMC 0.2 0.01 (-0.5) 0 0 0.5 2.

(** The same model with [rho = 0]. *)
Definition demo_self_rho0 : GarchCondMC := mkGarchCondMC 0.2 0.01 0 0 0 0.5 2.

(** The same model with [vov = 0]. *)
Definition demo_self_vov0 : GarchCondMC := mkGarchCondMC 0.2 0 (-0.5) 0 0 0.5 2.

(** A mean-reverting model, [mr=0.01, theta=0.04], with [vov = 0]. *)
Definition demo_self_vov0_mr : GarchCondMC :=
  mkGarchCondMC 0.2 0 (-0.5) 0.01 0.04 0.5 2.

(** The demonstration model with perfect correlation, [rho = 1]. *)
Definition demo_self_rho1 : GarchCondMC := mkGarchCondMC 0.2 0.01 1 0 0 0.5 2.

(** The variance of either path of [demo_self] after one step when the
    generator is in state 1 (it then draws the increment 1). *)
Definition demo_restart_v : R := exp (w_next demo_self (2 * ln 0.2) 1).

(** ** Definitions for the behaviour outside the generator's contract *)

(** A drawn row that line 54 accepts: one entry per path, or a single entry,
    which numpy repeats for every path. *)
Definition row_ok (self : GarchCondMC) (z : list R) : Prop :=
  length z = n_path self \/ length z = 1%nat.

(** A drawn row as numpy broadcasts it against a row of [n_path] entries. *)
Definition bcast_row (self : GarchCondMC) (z : list R) : list R :=
  if decide (length z = n_path self) then z else replicate (n_path self) (hd 0 z).

Definition bcast (self : GarchCondMC) (Z : list (list R)) : list (list R) :=
  bcast_row self <$> Z.

(** The shape [(n + 1, n_path)] of [w_t]. *)
Definition shape_inv (self : GarchCondMC) (n : nat) (w_t : list (list R)) : Prop :=
  length w_t = (n + 1)%nat /\
  Forall (fun r : list R => length r = n_path self) w_t.

(** The right-hand side of lines 46-55 from the previous row and a row of
    increments of the same length. *)
Definition next_row (self : GarchCondMC) (w_prev z : list R) : list R :=
  zip_with Rplus
    (zip_with Rplus w_prev
       ((fun w => (mr self * theta self * exp (- w) - mr self - vov self ^ 2 / 2)
                  * dt self) <$> w_prev))
    ((fun x => vov self * sqrt (dt self) * x) <$> z).

(** The sum of the first [i] increments of path [j]. *)
Fixpoint sum_incr (Z : list (list R)) (i j : nat) : R :=
  match i with
  | O => 0
  | S k => sum_incr Z k j + incr Z k j
  end.

(** The model with another initial volatility. *)
Definition with_sigma (self : GarchCondMC) (s : R) : GarchCondMC :=
  mkGarchCondMC s (vov self) (rho self) (mr self) (theta self) (dt self) (n_path self).

(** Generators outside the contract: one that returns no row, one whose rows
    are two entries too wide, and one whose rows have a single entry. *)
Definition short_bm_incr (self : GarchCondMC) (g : nat) (ts : list R) (cum : bool)
  : list (list R) * nat :=
  ([], S g).

Definition wide_bm_incr (self : GarchCondMC) (g : nat) (ts : list R) (cum : bool)
  : list (list R) * nat :=
  ((fun _ : R => replicate (n_path self + 2) (INR g)) <$> ts, S g).

Definition shared_bm_incr (self : GarchCondMC) (g : nat) (ts : list R) (cum : bool)
  : list (list R) * nat :=
  ((fun _ : R => [INR g]) <$> ts, S g).

(** ** Facts about the numpy operations *)

Lemma ceil_shifted (n : nat) : Np.ceil (INR n + 0.1 - 1) = Z.of_nat n.
Proof.
  unfold Np.ceil.
  assert (H : (1 - Z.of_nat n)%Z = up (- (INR n + 0.1 - 1))).
  { apply tech_up; rewrite minus_IZR, <- INR_IZR_INZ; simpl; lra. }
  rewrite <- H. lia.
Qed.

Lemma arange_length (n : nat) : length (Np.arange 1 (INR n + 0.1)) = n.
Proof.
  unfold Np.arange. rewrite length_fmap, length_seq, ceil_shifted. lia.
Qed.

Lemma bind_assoc {A B C} (m : result A) (f : A -> result B) (k : B -> result C) :
  bind (bind m f) k = bind m (fun a => bind (f a) k).
Proof. now destruct m. Qed.

Lemma arange_index (n : nat) : Np.arange 1 (INR n + 0.1) = INR <$> seq 1 n.
Proof.
  unfold Np.arange. rewrite ceil_shifted, Nat2Z.id, <- fmap_S_seq, <- list_fmap_compose.
  apply list_fmap_ext. intros _ k _. unfold compose. rewrite S_INR. lra.
Qed.

Lemma broadcast2_same (f : R -> R -> R) (a b : list R) :
  length a = length b -> Np.broadcast2 f a b = Ok (zip_with f a b).
Proof.
  intros H. unfold Np.broadcast2. destruct (decide _); [reflexivity | contradiction].
Qed.

Lemma fmap_const_seq (x : R) (s n : nat) :
  (fun _ : nat => x) <$> seq s n = replicate n x.
Proof.
  revert s. induction n as [|n IH]; intros s; simpl; [reflexivity | now rewrite IH].
Qed.

(** ** The loop of [vol_paths] *)

Section Loop.

Variable self : GarchCondMC.
Variable Z : list (list R).
Variable n : nat.
Hypothesis Z_rows : length Z = n.
Hypothesis Z_cols : Forall (fun r : list R => length r = n_path self) Z.

Let w_row (i : nat) : list R := (fun j => w_spec self Z i j) <$> seq 0 (n_path self).
Local Abbreviation inv := (loop_inv self Z n).

Lemma Z_row_lookup (k : nat) :
  (k < n)%nat -> exists z, Z !! k = Some z /\ length z = n_path self /\
                           forall j, nth j z 0 = incr Z k j.
Proof.
  intros Hk. destruct (lookup_lt_is_Some_2 Z k) as [z Hz]; [lia|].
  exists z. split; [exact Hz|]. split.
  - eapply Forall_lookup_1 in Z_cols; eauto.
  - intros j. unfold incr. now rewrite (nth_lookup_Some _ _ [] _ Hz).
Qed.

Lemma step_row (k : nat) (z : list R) :
  length z = n_path self -> (forall j, nth j z 0 = incr Z k j) ->
  zip_with Rplus
    (zip_with Rplus (w_row k)
       ((fun w => (mr self * theta self * exp (- w) - mr self - vov self ^ 2 / 2)
                  * dt self) <$> w_row k))
    ((fun x => vov self * sqrt (dt self) * x) <$> z)
  = w_row (S k).
Proof.
  intros Hz Hnth. apply list_eq. intros j. unfold w_row.
  rewrite !lookup_zip_with, !list_lookup_fmap.
  destruct (decide (j < n_path self)%nat) as [Hj|Hj].
  - rewrite lookup_seq_lt by lia. simpl.
    destruct (lookup_lt_is_Some_2 z j) as [x Hx]; [lia|].
    rewrite Hx. simpl. f_equal. unfold w_next.
    rewrite <- Hnth, (nth_lookup_Some _ _ 0 _ Hx). reflexivity.
  - rewrite lookup_seq_ge by lia. reflexivity.
Qed.

Lemma vol_paths_step_inv (k : nat) (w_t : list (list R)) :
  (k < n)%nat -> inv k w_t ->
  exists w_t', vol_paths_step self Z w_t (S k) = Ok w_t' /\ inv (S k) w_t'.
Proof.
  intros Hk (Hlen & Hcols & Hrows).
  change (forall i, (i <= k)%nat -> w_t !! i = Some (w_row i)) in Hrows.
  destruct (Z_row_lookup k Hk) as (z & Hz & Hzlen & Hznth).
  destruct (lookup_lt_is_Some_2 w_t (S k)) as [r Hr]; [lia|].
  assert (Hrlen : length r = n_path self) by (eapply Forall_lookup_1 in Hcols; eauto).
  assert (Hwlen : forall i, length (w_row i) = n_path self)
    by (intros i; unfold w_row; now rewrite length_fmap, length_seq).
  exists (<[S k := w_row (S k)]> w_t). split.
  - unfold vol_paths_step, Np.row, Np.add, Np.set_row.
    replace (S k - 1)%nat with k by lia.
    rewrite (Hrows k) by lia. cbn [bind].
    rewrite broadcast2_same by now rewrite length_fmap. cbn [bind].
    rewrite Hz. cbn [bind].
    rewrite broadcast2_same
      by (rewrite length_zip_with, !length_fmap, Hwlen, Hzlen; lia).
    cbn [bind]. rewrite Hr, (step_row k z Hzlen Hznth).
    destruct (decide _) as [|Hne]; [reflexivity|].
    exfalso. apply Hne. now rewrite Hwlen, Hrlen.
  - split; [now rewrite length_insert|]. split.
    + apply Forall_insert; [exact Hcols | apply Hwlen].
    + intros i Hi. destruct (decide (i = S k)) as [->|Hne].
      * apply list_lookup_insert_eq. lia.
      * rewrite list_lookup_insert_ne by lia. apply Hrows. lia.
Qed.

Lemma for_each_step_inv (m k : nat) (w_t : list (list R)) :
  (k + m <= n)%nat -> inv k w_t ->
  exists w_t', for_each (vol_paths_step self Z) (seq (S k) m) w_t = Ok w_t'
               /\ inv (k + m) w_t'.
Proof.
  revert k w_t. induction m as [|m IH]; intros k w_t Hkm Hinv.
  - exists w_t. replace (k + 0)%nat with k by lia. now split.
  - destruct (vol_paths_step_inv k w_t) as (w1 & Hstep & Hinv1); [lia | exact Hinv |].
    destruct (IH (S k) w1) as (w2 & Hrest & Hinv2); [lia | exact Hinv1 |].
    exists w2. split.
    + simpl. rewrite Hstep. exact Hrest.
    + replace (k + S m)%nat with (S k + m)%nat by lia. exact Hinv2.
Qed.

Lemma fill_row_inv :
  exists w_t, Np.fill_row (Np.zeros (n + 1) (n_path self)) 0 (2 * ln (sigma self)) = Ok w_t
              /\ inv 0 w_t.
Proof.
  unfold Np.fill_row, Np.zeros. replace (n + 1)%nat with (S n) by lia. simpl.
  rewrite length_replicate. eexists. split; [reflexivity|].
  split; [simpl; rewrite length_replicate; lia|]. split.
  - constructor; [apply length_replicate|].
    apply Forall_replicate, length_replicate.
  - intros i Hi. replace i with 0%nat by lia. simpl. unfold w_row.
    now rewrite (fmap_const_seq (2 * ln (sigma self))).
Qed.

Lemma loop_inv_full (w_t : list (list R)) :
  inv n w_t -> w_t = w_rows self Z n.
Proof.
  intros (Hlen & _ & Hrows). apply list_eq. intros i. unfold w_rows.
  rewrite list_lookup_fmap.
  destruct (decide (i < n + 1)%nat) as [Hi|Hi].
  - rewrite lookup_seq_lt by lia. simpl. apply Hrows. lia.
  - rewrite lookup_seq_ge by lia. simpl. apply lookup_ge_None_2. lia.
Qed.

Lemma vol_paths_loop :
  bind (Np.fill_row (Np.zeros (n + 1) (n_path self)) 0 (2 * ln (sigma self)))
    (for_each (vol_paths_step self Z) (seq 1 n))
  = Ok (w_rows self Z n).
Proof.
  destruct fill_row_inv as (w0 & Hfill & Hinv0).
  destruct (for_each_step_inv n 0 w0) as (w1 & Hloop & Hinv1); [lia | exact Hinv0 |].
  rewrite Hfill. simpl. rewrite Hloop. f_equal. now apply loop_inv_full.
Qed.

End Loop.

(** ** [vol_paths] and [cond_spot_sigma] under the generator's contract *)

Section Facts.

Variable rng : Type.
Variable _bm_incr : GarchCondMC -> rng -> list R -> bool -> list (list R) * rng.
Variable self_tobs : GarchCondMC -> R -> list R.
Variable simps : list R -> R -> R.
Variable self : GarchCondMC.
Hypothesis shape : bm_shape _bm_incr self.

Local Abbreviation Zof g n := (drawn _bm_incr self g n).1.

Lemma vol_paths_closed (g : rng) (tobs : list R) :
  vol_paths _bm_incr self g tobs
  = Ok (Np.map2d exp (w_rows self (Zof g (length tobs)) (length tobs)),
        (drawn _bm_incr self g (length tobs)).2).
Proof.
  unfold vol_paths, drawn.
  destruct (shape g (Np.arange 1 (INR (length tobs) + 0.1)) false) as [Hr Hc].
  rewrite arange_length in Hr.
  destruct (_bm_incr self g _ false) as [Z g'] eqn:E. cbn [fst snd] in Hr, Hc |- *.
  rewrite <- bind_assoc, (vol_paths_loop self Z (length tobs) Hr Hc).
  reflexivity.
Qed.

(** *** Shape of the variance matrix *)

Lemma w_rows_length (Z : list (list R)) (n : nat) :
  length (w_rows self Z n) = (n + 1)%nat.
Proof. unfold w_rows. now rewrite length_fmap, length_seq. Qed.

Lemma map2d_length (f : R -> R) (m : list (list R)) :
  length (Np.map2d f m) = length m.
Proof. unfold Np.map2d. apply length_fmap. Qed.

Lemma map2d_w_rows_lookup (f : R -> R) (Z : list (list R)) (n i : nat) :
  (i <= n)%nat ->
  Np.map2d f (w_rows self Z n) !! i
  = Some ((fun j => f (w_spec self Z i j)) <$> seq 0 (n_path self)).
Proof.
  intros Hi. unfold Np.map2d, w_rows.
  rewrite !list_lookup_fmap, lookup_seq_lt by lia. simpl.
  now rewrite <- list_fmap_compose.
Qed.

Lemma map2d_w_rows_cols (f : R -> R) (Z : list (list R)) (n : nat) :
  Forall (fun r : list R => length r = n_path self) (Np.map2d f (w_rows self Z n)).
Proof.
  unfold Np.map2d, w_rows. rewrite <- list_fmap_compose.
  apply Forall_fmap, Forall_forall. intros i _. simpl.
  now rewrite !length_fmap, length_seq.
Qed.

Lemma map2d_w_rows_ncols (f : R -> R) (Z : list (list R)) (n : nat) :
  Np.ncols (Np.map2d f (w_rows self Z n)) = n_path self.
Proof.
  pose proof (map2d_w_rows_lookup f Z n 0 ltac:(lia)) as H.
  destruct (Np.map2d f (w_rows self Z n)) as [|r m]; [discriminate|].
  simpl in H. injection H as ->. simpl. now rewrite length_fmap, length_seq.
Qed.

Lemma map2d_w_rows_last (f : R -> R) (Z : list (list R)) (n : nat) :
  Np.last_row (Np.map2d f (w_rows self Z n))
  = Ok ((fun j => f (w_spec self Z n j)) <$> seq 0 (n_path self)).
Proof.
  unfold Np.last_row. rewrite last_lookup, map2d_length, w_rows_length.
  replace (Init.Nat.pred (n + 1)) with n by lia.
  now rewrite map2d_w_rows_lookup by lia.
Qed.

Lemma map2d_compose (f h : R -> R) (m : list (list R)) :
  Np.map2d f (Np.map2d h m) = Np.map2d (fun x => f (h x)) m.
Proof.
  unfold Np.map2d. rewrite <- list_fmap_compose. apply list_fmap_ext.
  intros _ r _. simpl. now rewrite <- list_fmap_compose.
Qed.

Lemma simps_axis0_length (y : list (list R)) (dx : R) :
  length (simps_axis0 simps y dx) = Np.ncols y.
Proof. unfold simps_axis0. now rewrite length_fmap, length_seq. Qed.

(** *** The locals of [cond_spot_sigma] *)

Lemma locals_closed (g : rng) (texp : R) :
  let n := length (self_tobs self texp) in
  cond_spot_sigma_locals _bm_incr self_tobs simps self g texp
  = Ok (locals_at simps self (Zof g n) n texp, (drawn _bm_incr self g n).2).
Proof.
  intros n. unfold cond_spot_sigma_locals, locals_at.
  rewrite vol_paths_closed. cbn [bind]. fold n.
  set (V := Np.map2d exp (w_rows self (Zof g n) n)).
  assert (Hlast : Np.last_row (Np.map2d sqrt V)
                  = Ok ((fun j => sqrt (exp (w_spec self (Zof g n) n j)))
                          <$> seq 0 (n_path self))).
  { unfold V. rewrite map2d_compose. apply (map2d_w_rows_last (fun x => sqrt (exp x))). }
  rewrite Hlast. reflexivity.
Qed.

Lemma locals_at_aligned (Z : list (list R)) (n : nat) (texp : R) :
  length (sigma_final (locals_at simps self Z n texp)) = n_path self /\
  aligned (locals_at simps self Z n texp).
Proof.
  unfold aligned, locals_at. cbn [sigma_final int_sigma int_var int_sigma_inv].
  rewrite !length_fmap, !simps_axis0_length, length_seq, !map2d_compose,
    !map2d_w_rows_ncols.
  auto.
Qed.

Lemma py_truediv_ok (x y : R) : y <> 0 -> py_truediv x y = Ok (x / y).
Proof. intros H. unfold py_truediv. now destruct (Req_dec_T y 0). Qed.

Lemma py_truediv_zero (x : R) : py_truediv x 0 = Raise ZeroDivisionError.
Proof. unfold py_truediv. now destruct (Req_dec_T 0 0). Qed.

Lemma fwd_cond_of_ok (L : locals) :
  vov self <> 0 -> aligned L ->
  exists fwd,
    fwd_cond_of self L = Ok fwd /\
    length fwd = length (sigma_final L) /\
    forall j sf si sv sinv,
      sigma_final L !! j = Some sf -> int_sigma L !! j = Some si ->
      int_var L !! j = Some sv -> int_sigma_inv L !! j = Some sinv ->
      fwd !! j = Some (fwd_cond_spec self sf si sv sinv).
Proof.
  intros Hvov (H1 & H2 & H3). unfold fwd_cond_of, Np.sub, Np.add.
  rewrite broadcast2_same by now rewrite !length_fmap.
  cbn [bind]. rewrite py_truediv_ok by exact Hvov. cbn [bind].
  rewrite broadcast2_same by (rewrite length_zip_with, !length_fmap; lia).
  cbn [bind].
  rewrite broadcast2_same by (rewrite !length_zip_with, !length_fmap; lia).
  cbn [bind]. eexists. split; [reflexivity|]. split.
  - rewrite length_fmap, !length_zip_with, !length_fmap. lia.
  - intros j sf si sv sinv Hsf Hsi Hsv Hsinv.
    rewrite list_lookup_fmap, !lookup_zip_with, !list_lookup_fmap.
    rewrite Hsf, Hsi, Hsv, Hsinv. reflexivity.
Qed.

Lemma fwd_cond_of_vov0 (L : locals) :
  vov self = 0 -> aligned L -> fwd_cond_of self L = Raise ZeroDivisionError.
Proof.
  intros Hvov (H1 & H2 & H3). unfold fwd_cond_of, Np.sub.
  rewrite broadcast2_same by now rewrite !length_fmap.
  cbn [bind]. rewrite Hvov, py_truediv_zero. reflexivity.
Qed.

Lemma cond_spot_sigma_unfold (g : rng) (texp : R) :
  let n := length (self_tobs self texp) in
  let L := locals_at simps self (Zof g n) n texp in
  cond_spot_sigma _bm_incr self_tobs simps self g texp
  = bind (fwd_cond_of self L)
      (fun fwd => Ok ((fwd, (fun x => rhoc L * sqrt x) <$> int_var L),
                      (drawn _bm_incr self g n).2)).
Proof.
  intros n L. unfold cond_spot_sigma. rewrite locals_closed. reflexivity.
Qed.

Lemma cond_spot_sigma_vov0 (g : rng) (texp : R) :
  vov self = 0 ->
  cond_spot_sigma _bm_incr self_tobs simps self g texp = Raise ZeroDivisionError.
Proof.
  intros Hvov. rewrite cond_spot_sigma_unfold. cbv zeta.
  rewrite fwd_cond_of_vov0; [reflexivity | exact Hvov | apply locals_at_aligned].
Qed.

Lemma fwd_cond_spec_rho0 (sf si sv sinv : R) :
  rho self = 0 -> fwd_cond_spec self sf si sv sinv = 1.
Proof.
  intros H. unfold fwd_cond_spec. rewrite H, Rmult_0_l. apply exp_0.
Qed.

Lemma entry_map2d_w_rows (f : R -> R) (Z : list (list R)) (n i j : nat) :
  (i <= n)%nat -> (j < n_path self)%nat ->
  Np.entry (Np.map2d f (w_rows self Z n)) i j = Some (f (w_spec self Z i j)).
Proof.
  intros Hi Hj. unfold Np.entry. rewrite map2d_w_rows_lookup by exact Hi.
  now rewrite list_lookup_fmap, lookup_seq_lt by lia.
Qed.

Lemma exp_2ln (x : R) : 0 < x -> exp (2 * ln x) = x ^ 2.
Proof.
  intros Hx. replace (2 * ln x) with (ln x + ln x) by lra.
  rewrite exp_plus, exp_ln by exact Hx. simpl. lra.
Qed.

(** *** The variance path simulator *)

(** C2: for a non-empty grid of length [n_dt] and [sigma > 0],
    [vol_paths] returns an [(n_dt+1, n_path)] matrix whose entry [(i, j)]
    is [exp (w i j)], where [w 0 j = 2 * log sigma] (so that row 0 of the
    result is [sigma ** 2]) and [w (i+1) j] is obtained from [w i j] by
    [w + (mr*theta*exp(-w) - mr - vov^2/2)*dt + vov*sqrt(dt)*Z] with [Z]
    the entry of the [(i+1)]-th row of the drawn increments and [dt] the
    field of the model. *)
Theorem vol_paths_recurrence (g : rng) (tobs : list R) :
  tobs <> [] -> 0 < sigma self ->
  exists (V : list (list R)) (g' : rng) (w : nat -> nat -> R),
    vol_paths _bm_incr self g tobs = Ok (V, g') /\
    length V = (length tobs + 1)%nat /\
    Forall (fun r : list R => length r = n_path self) V /\
    (forall j, w 0%nat j = 2 * ln (sigma self)) /\
    (forall i j,
        w (S i) j
        = w i j
          + (mr self * theta self * exp (- w i j) - mr self - vov self ^ 2 / 2)
            * dt self
          + vov self * sqrt (dt self) * incr (Zof g (length tobs)) i j) /\
    (forall i j, (i <= length tobs)%nat -> (j < n_path self)%nat ->
                 Np.entry V i j = Some (exp (w i j))) /\
    (forall j, (j < n_path self)%nat -> Np.entry V 0 j = Some (sigma self ^ 2)).
Proof.
  intros _ Hsigma.
  exists (Np.map2d exp (w_rows self (Zof g (length tobs)) (length tobs))),
    (drawn _bm_incr self g (length tobs)).2,
    (w_spec self (Zof g (length tobs))).
  split; [apply vol_paths_closed|].
  split; [now rewrite map2d_length, w_rows_length|].
  split; [apply map2d_w_rows_cols|].
  split; [reflexivity|]. split; [reflexivity|]. split.
  - intros i j Hi Hj. now apply entry_map2d_w_rows.
  - intros j Hj. rewrite entry_map2d_w_rows by (lia || exact Hj).
    simpl. now rewrite exp_2ln.
Qed.

(** C7: [vol_paths] depends on the grid only through its length: two
    grids of equal length give the same outcome from the same generator
    state, the increments being requested on the index sequence
    [1..n_dt] and the step being the field [dt]. *)
Theorem vol_paths_grid_length_only (g : rng) (tobs1 tobs2 : list R) :
  length tobs1 = length tobs2 ->
  vol_paths _bm_incr self g tobs1 = vol_paths _bm_incr self g tobs2 /\
  vol_paths _bm_incr self g tobs1
  = Ok (Np.map2d exp
          (w_rows self (_bm_incr self g (INR <$> seq 1 (length tobs1)) false).1
             (length tobs1)),
        (_bm_incr self g (INR <$> seq 1 (length tobs1)) false).2).
Proof.
  intros Hlen. split.
  - unfold vol_paths. now rewrite Hlen.
  - rewrite vol_paths_closed. unfold drawn. now rewrite arange_index.
Qed.

(** C8: [vol_paths] is deterministic given its draws: two calls on grids
    of the same length for which the generator yields the same increments
    return the same variance matrix. *)
Theorem vol_paths_deterministic (g1 g2 : rng) (tobs1 tobs2 : list R) :
  length tobs1 = length tobs2 ->
  (drawn _bm_incr self g1 (length tobs1)).1
  = (drawn _bm_incr self g2 (length tobs2)).1 ->
  exists V : list (list R),
    variance_of (vol_paths _bm_incr self g1 tobs1) = Ok V /\
    variance_of (vol_paths _bm_incr self g2 tobs2) = Ok V.
Proof.
  intros Hlen HZ. rewrite !vol_paths_closed, HZ, Hlen. cbn [variance_of bind].
  eexists. split; reflexivity.
Qed.

Lemma fmap_nth_seq (f : R -> R) (z : list R) :
  (fun j => f (nth j z 0)) <$> seq 0 (length z) = f <$> z.
Proof.
  apply list_eq. intros j. rewrite !list_lookup_fmap.
  destruct (decide (j < length z)%nat) as [Hj|Hj].
  - rewrite lookup_seq_lt by lia. simpl.
    destruct (lookup_lt_is_Some_2 z j Hj) as [x Hx].
    now rewrite Hx, (nth_lookup_Some _ _ 0 _ Hx).
  - rewrite lookup_seq_ge by lia. now rewrite lookup_ge_None_2 by lia.
Qed.

(** C9: on a grid of a single point and with valid parameters
    ([sigma > 0], [dt >= 0], [vov ** 2] in the float range) [vol_paths]
    raises nothing and returns exactly 2 rows: the initial row, [sigma ** 2]
    on every path, and one advanced row, [exp] of
    [w + (mr*theta*exp(-w) - mr - vov^2/2)*dt + vov*sqrt(dt)*z] with
    [w = 2 * log sigma] and [z] the entry of the single drawn row. *)
Theorem vol_paths_single_step (g : rng) (tobs : list R) :
  length tobs = 1%nat ->
  0 < sigma self -> 0 <= dt self -> pow2_in_range (vov self) ->
  exists (V : list (list R)) (g' : rng) (z : list R),
    vol_paths _bm_incr self g tobs = Ok (V, g') /\
    (_bm_incr self g [1] false).1 = [z] /\
    g' = (_bm_incr self g [1] false).2 /\
    length z = n_path self /\
    V = [replicate (n_path self) (sigma self ^ 2);
         (fun x =>
            exp (2 * ln (sigma self)
                 + (mr self * theta self * exp (- (2 * ln (sigma self)))
                    - mr self - vov self ^ 2 / 2) * dt self
                 + vov self * sqrt (dt self) * x)) <$> z].
Proof.
  intros Hlen Hsigma _ _.
  assert (Hreq : Np.arange 1 (INR 1 + 0.1) = [1])
    by (rewrite arange_index; simpl; reflexivity).
  destruct (shape g [1] false) as [Hrows Hcols].
  destruct ((_bm_incr self g [1] false).1) as [|z [|z' Z]] eqn:EZ;
    simpl in Hrows; try lia.
  apply Forall_cons in Hcols as [Hz _].
  exists (Np.map2d exp (w_rows self [z] 1)), (_bm_incr self g [1] false).2, z.
  split.
  { rewrite vol_paths_closed, Hlen. unfold drawn. rewrite Hreq, EZ. reflexivity. }
  split; [reflexivity|]. split; [reflexivity|]. split; [exact Hz|].
  unfold Np.map2d, w_rows. cbn [seq Nat.add fmap list_fmap w_spec].
  f_equal; [|f_equal].
  - now rewrite (fmap_const_seq (2 * ln (sigma self))), fmap_replicate, exp_2ln.
  - rewrite <- list_fmap_compose, <- Hz. unfold compose, w_next, incr. cbn [nth].
    apply (fmap_nth_seq
             (fun x =>
                exp (2 * ln (sigma self)
                     + (mr self * theta self * exp (- (2 * ln (sigma self)))
                        - mr self - vov self ^ 2 / 2) * dt self
                     + vov self * sqrt (dt self) * x))).
Qed.

(** *** The conditional spot-sigma transformer *)

Lemma lookup_some_lt (l : list R) (j : nat) :
  (j < length l)%nat -> exists x, l !! j = Some x.
Proof. intros H. now apply lookup_lt_is_Some_2. Qed.

(** C1: for an expiry with a non-empty grid and [vov <> 0],
    [cond_spot_sigma] returns, and entry [j] of its [fwd_cond] is
    [exp(rho * (2*(sigma_final - sigma)/vov - mr*theta*int_sigma_inv/vov
    + (mr/vov + vov/4)*int_sigma - rho*int_var/2))] taken at entry [j] of
    [sigma_final], the last row of [sqrt(var_paths)], and of the three path
    integrals. *)
Theorem fwd_cond_formula (g : rng) (texp : R) :
  self_tobs self texp <> [] -> vov self <> 0 ->
  exists (L : locals) (fwd sig : list R) (g' : rng),
    cond_spot_sigma_locals _bm_incr self_tobs simps self g texp = Ok (L, g') /\
    cond_spot_sigma _bm_incr self_tobs simps self g texp = Ok ((fwd, sig), g') /\
    vol_paths _bm_incr self g (self_tobs self texp) = Ok (var_paths L, g') /\
    Np.last_row (Np.map2d sqrt (var_paths L)) = Ok (sigma_final L) /\
    int_sigma L
    = (fun s => s * texp / INR (length (self_tobs self texp)))
        <$> simps_axis0 simps (Np.map2d sqrt (var_paths L)) 1 /\
    int_var L
    = (fun s => s * texp / INR (length (self_tobs self texp)))
        <$> simps_axis0 simps (var_paths L) 1 /\
    int_sigma_inv L
    = (fun s => s * texp / INR (length (self_tobs self texp)))
        <$> simps_axis0 simps (Np.map2d (fun x => 1 / x) (Np.map2d sqrt (var_paths L))) 1 /\
    length fwd = n_path self /\
    forall j, (j < n_path self)%nat ->
      exists sf si sv sinv,
        sigma_final L !! j = Some sf /\ int_sigma L !! j = Some si /\
        int_var L !! j = Some sv /\ int_sigma_inv L !! j = Some sinv /\
        fwd !! j = Some (fwd_cond_spec self sf si sv sinv).
Proof.
  intros _ Hvov.
  set (n := length (self_tobs self texp)).
  set (L := locals_at simps self (Zof g n) n texp).
  destruct (locals_at_aligned (Zof g n) n texp) as [Hsf Hal]. fold L in Hsf, Hal.
  destruct (fwd_cond_of_ok L Hvov Hal) as (fwd & Hfwd & Hlen & Hent).
  exists L, fwd, ((fun x => rhoc L * sqrt x) <$> int_var L),
    (drawn _bm_incr self g n).2.
  split; [apply locals_closed|].
  split; [rewrite cond_spot_sigma_unfold; fold n; fold L; now rewrite Hfwd|].
  split; [apply vol_paths_closed|].
  split.
  { unfold L, locals_at. cbn [var_paths sigma_final].
    rewrite map2d_compose. apply (map2d_w_rows_last (fun x => sqrt (exp x))). }
  do 3 (split; [reflexivity|]).
  split; [lia|].
  intros j Hj. destruct Hal as (H1 & H2 & H3).
  destruct (lookup_some_lt (sigma_final L) j) as [sf Esf]; [lia|].
  destruct (lookup_some_lt (int_sigma L) j) as [si Esi]; [lia|].
  destruct (lookup_some_lt (int_var L) j) as [sv Esv]; [lia|].
  destruct (lookup_some_lt (int_sigma_inv L) j) as [sinv Esinv]; [lia|].
  exists sf, si, sv, sinv. repeat (split; [assumption|]).
  now apply Hent.
Qed.

(** C5: with [rho = 0] (and [vov <> 0], [sigma > 0], a non-empty grid)
    the [fwd_cond] that [cond_spot_sigma] returns is 1 on every path. *)
Theorem fwd_cond_uncorrelated (g : rng) (texp : R) :
  self_tobs self texp <> [] -> rho self = 0 -> vov self <> 0 -> 0 < sigma self ->
  exists (fwd sig : list R) (g' : rng),
    cond_spot_sigma _bm_incr self_tobs simps self g texp = Ok ((fwd, sig), g') /\
    fwd = replicate (n_path self) 1.
Proof.
  intros _ Hrho Hvov _.
  set (n := length (self_tobs self texp)).
  set (L := locals_at simps self (Zof g n) n texp).
  destruct (locals_at_aligned (Zof g n) n texp) as [Hsf Hal]. fold L in Hsf, Hal.
  destruct (fwd_cond_of_ok L Hvov Hal) as (fwd & Hfwd & Hlen & Hent).
  exists fwd, ((fun x => rhoc L * sqrt x) <$> int_var L),
    (drawn _bm_incr self g n).2.
  split; [rewrite cond_spot_sigma_unfold; fold n; fold L; now rewrite Hfwd|].
  apply list_eq. intros j. destruct Hal as (H1 & H2 & H3).
  destruct (decide (j < n_path self)%nat) as [Hj|Hj].
  - destruct (lookup_some_lt (sigma_final L) j) as [sf Esf]; [lia|].
    destruct (lookup_some_lt (int_sigma L) j) as [si Esi]; [lia|].
    destruct (lookup_some_lt (int_var L) j) as [sv Esv]; [lia|].
    destruct (lookup_some_lt (int_sigma_inv L) j) as [sinv Esinv]; [lia|].
    rewrite (Hent j sf si sv sinv Esf Esi Esv Esinv).
    rewrite fwd_cond_spec_rho0 by exact Hrho.
    symmetry. now apply lookup_replicate_2.
  - rewrite lookup_ge_None_2 by lia.
    symmetry. apply lookup_ge_None_2. rewrite length_replicate. lia.
Qed.




Lemma rescaled_simps (m : list (list R)) (texp : R) (n : nat) :
  Np.ncols m = n_path self ->
  (fun s => s * texp / INR n) <$> simps_axis0 simps m 1
  = (fun j => simps (Np.column m j) 1 * (texp / INR n)) <$> seq 0 (n_path self).
Proof.
  intros Hc. unfold simps_axis0. rewrite Hc, <- list_fmap_compose.
  apply list_fmap_ext. intros _ j _. unfold compose, Rdiv. ring.
Qed.

(** C6: for every expiry, each of the three path integrals of
    [cond_spot_sigma] is, path by path, [simps] with unit spacing over the
    [n_dt + 1] rows of the path matrix (of [sigma], of the variance, of
    [1/sigma]) multiplied by [texp / n_dt]; the values of the grid do not
    enter: every grid of the same length gives the same path matrix. *)
Theorem path_integrals_rescaled (g : rng) (texp : R) :
  exists (L : locals) (g' : rng),
    cond_spot_sigma_locals _bm_incr self_tobs simps self g texp = Ok (L, g') /\
    cond_spot_sigma _bm_incr self_tobs simps self g texp
    = bind (fwd_cond_of self L)
        (fun fwd => Ok ((fwd, (fun x => rhoc L * sqrt x) <$> int_var L), g')) /\
    n_dt L = length (self_tobs self texp) /\
    length (var_paths L) = (n_dt L + 1)%nat /\
    sigma_paths L = Np.map2d sqrt (var_paths L) /\
    int_sigma L
    = (fun j => simps (Np.column (sigma_paths L) j) 1 * (texp / INR (n_dt L)))
        <$> seq 0 (n_path self) /\
    int_var L
    = (fun j => simps (Np.column (var_paths L) j) 1 * (texp / INR (n_dt L)))
        <$> seq 0 (n_path self) /\
    int_sigma_inv L
    = (fun j => simps (Np.column (Np.map2d (fun x => 1 / x) (sigma_paths L)) j) 1
                * (texp / INR (n_dt L)))
        <$> seq 0 (n_path self) /\
    forall grid : list R,
      length grid = length (self_tobs self texp) ->
      vol_paths _bm_incr self g grid = Ok (var_paths L, g').
Proof.
  set (n := length (self_tobs self texp)).
  exists (locals_at simps self (Zof g n) n texp), (drawn _bm_incr self g n).2.
  split; [apply locals_closed|].
  split; [apply cond_spot_sigma_unfold|].
  unfold locals_at.
  cbn [n_dt var_paths sigma_paths int_sigma int_var int_sigma_inv].
  split; [reflexivity|].
  split; [now rewrite map2d_length, w_rows_length|].
  split; [reflexivity|].
  split; [apply rescaled_simps; rewrite map2d_compose; apply map2d_w_rows_ncols|].
  split; [apply rescaled_simps, map2d_w_rows_ncols|].
  split; [apply rescaled_simps; rewrite !map2d_compose; apply map2d_w_rows_ncols|].
  intros grid Hgrid. rewrite vol_paths_closed, Hgrid. reflexivity.
Qed.

(** C10, amended: [cond_spot_sigma] checks nothing itself; with
    [vov = 0] lines 61-69 run without raising, the elementwise divisions
    by [vov] do not raise either, and the quotient [mr / vov] of two
    scalars raises [ZeroDivisionError]: the call ends with this exception
    and returns no [fwd_cond]. *)
Theorem vov_zero_raises (g : rng) (texp : R) :
  vov self = 0 ->
  exists (L : locals) (g' : rng),
    cond_spot_sigma_locals _bm_incr self_tobs simps self g texp = Ok (L, g') /\
    Np.sub ((fun x => 2 * (x - sigma self) / vov self) <$> sigma_final L)
           ((fun x => mr self * theta self * x / vov self) <$> int_sigma_inv L)
    = Ok (zip_with Rminus
            ((fun x => 2 * (x - sigma self) / vov self) <$> sigma_final L)
            ((fun x => mr self * theta self * x / vov self) <$> int_sigma_inv L)) /\
    py_truediv (mr self) (vov self) = Raise ZeroDivisionError /\
    fwd_cond_of self L = Raise ZeroDivisionError /\
    cond_spot_sigma _bm_incr self_tobs simps self g texp = Raise ZeroDivisionError.
Proof.
  intros Hvov.
  set (n := length (self_tobs self texp)).
  destruct (locals_at_aligned (Zof g n) n texp) as [Hsf Hal].
  exists (locals_at simps self (Zof g n) n texp), (drawn _bm_incr self g n).2.
  split; [apply locals_closed|].
  split.
  { destruct Hal as (H1 & _). unfold Np.sub.
    apply broadcast2_same. now rewrite !length_fmap. }
  split; [rewrite Hvov; apply py_truediv_zero|].
  split; [now apply fwd_cond_of_vov0 | now apply cond_spot_sigma_vov0].
Qed.

End Facts.

(** ** The concrete instance *)

(** Runs the model on a concrete instance, leaving the real arithmetic
    unevaluated. *)
Ltac run_model :=
  unfold cond_spot_sigma, cond_spot_sigma_locals, vol_paths;
  rewrite arange_index;
  cbn -[Rplus Rmult Rminus Rdiv Ropp Rinv exp ln sqrt pow INR];
  unfold fwd_cond_of;
  cbn -[Rplus Rmult Rminus Rdiv Ropp Rinv exp ln sqrt pow INR py_truediv].

Lemma demo_bm_shape (self : GarchCondMC) : bm_shape demo_bm_incr self.
Proof.
  intros g ts c. unfold demo_bm_incr. cbn [fst]. split.
  - apply length_fmap.
  - apply Forall_fmap, Forall_forall. intros t _. simpl. apply length_replicate.
Qed.

(** One step of [vol_paths] on the instance, evaluated: the generator in
    state 1 draws the increment 1 for both paths. *)
Example vol_paths_demo :
  vol_paths demo_bm_incr demo_self 1%nat [1]
  = Ok ([[exp (2 * ln 0.2); exp (2 * ln 0.2)];
         [exp (w_next demo_self (2 * ln 0.2) 1);
          exp (w_next demo_self (2 * ln 0.2) 1)]],
        2%nat).
Proof.
  unfold vol_paths. rewrite arange_index. reflexivity.
Qed.

Lemma vol_paths_recurrence_witness :
  bm_shape demo_bm_incr demo_self /\ [0.5; 1] <> [] /\ 0 < sigma demo_self /\
  exists (V : list (list R)) (g' : nat),
    vol_paths demo_bm_incr demo_self 0%nat [0.5; 1] = Ok (V, g') /\
    length V = 3%nat /\
    Np.entry V 0 0 = Some (sigma demo_self ^ 2) /\
    Np.entry V 0 1 = Some (sigma demo_self ^ 2).
Proof.
  split; [apply demo_bm_shape|]. split; [discriminate|].
  split; [simpl; lra|].
  destruct (vol_paths_recurrence nat demo_bm_incr demo_self
              (demo_bm_shape demo_self) 0%nat [0.5; 1])
    as (V & g' & w & HV & Hlen & _ & _ & _ & _ & Hrow0);
    [discriminate | simpl; lra |].
  exists V, g'. split; [exact HV|]. split; [exact Hlen|].
  split; apply Hrow0; simpl; lia.
Defined.

Lemma vol_paths_grid_length_only_witness :
  bm_shape demo_bm_incr demo_self /\
  length [0.5; 1] = length [0.1; 1] /\
  vol_paths demo_bm_incr demo_self 0%nat [0.5; 1]
  = vol_paths demo_bm_incr demo_self 0%nat [0.1; 1].
Proof.
  split; [apply demo_bm_shape|]. split; [reflexivity|].
  apply (vol_paths_grid_length_only nat demo_bm_incr demo_self
           (demo_bm_shape demo_self) 0%nat [0.5; 1] [0.1; 1]).
  reflexivity.
Defined.

Lemma vol_paths_deterministic_witness :
  bm_shape demo_bm_incr demo_self /\
  length [0.5; 1] = length [0.1; 1] /\
  (drawn demo_bm_incr demo_self 1%nat (length [0.5; 1])).1
  = (drawn demo_bm_incr demo_self 3%nat (length [0.1; 1])).1 /\
  exists V : list (list R),
    variance_of (vol_paths demo_bm_incr demo_self 1%nat [0.5; 1]) = Ok V /\
    variance_of (vol_paths demo_bm_incr demo_self 3%nat [0.1; 1]) = Ok V.
Proof.
  split; [apply demo_bm_shape|]. split; [reflexivity|]. split; [reflexivity|].
  apply (vol_paths_deterministic nat demo_bm_incr demo_self (demo_bm_shape demo_self));
    reflexivity.
Defined.

Lemma small_in_range (x : R) : Rabs x <= 1 -> pow2_in_range x.
Proof.
  intros H. unfold pow2_in_range. apply Rle_trans with 1; [exact H|].
  apply pow_R1_Rle. lra.
Qed.

Lemma demo_vov_in_range : pow2_in_range (vov demo_self).
Proof. apply small_in_range. simpl. rewrite Rabs_pos_eq; lra. Qed.

Lemma vol_paths_single_step_witness :
  bm_shape demo_bm_incr demo_self /\ length [1] = 1%nat /\
  0 < sigma demo_self /\ 0 <= dt demo_self /\ pow2_in_range (vov demo_self) /\
  exists (V : list (list R)) (g' : nat) (z : list R),
    vol_paths demo_bm_incr demo_self 1%nat [1] = Ok (V, g') /\
    (demo_bm_incr demo_self 1%nat [1] false).1 = [z] /\
    g' = (demo_bm_incr demo_self 1%nat [1] false).2 /\
    length z = n_path demo_self /\
    V = [replicate (n_path demo_self) (sigma demo_self ^ 2);
         (fun x =>
            exp (2 * ln (sigma demo_self)
                 + (mr demo_self * theta demo_self * exp (- (2 * ln (sigma demo_self)))
                    - mr demo_self - vov demo_self ^ 2 / 2) * dt demo_self
                 + vov demo_self * sqrt (dt demo_self) * x)) <$> z].
Proof.
  split; [apply demo_bm_shape|]. split; [reflexivity|].
  split; [simpl; lra|]. split; [simpl; lra|]. split; [apply demo_vov_in_range|].
  apply (vol_paths_single_step nat demo_bm_incr demo_self (demo_bm_shape demo_self)
           1%nat [1]);
    [reflexivity | simpl; lra | simpl; lra | apply demo_vov_in_range].
Defined.

Lemma fwd_cond_formula_witness :
  bm_shape demo_bm_incr demo_self /\
  demo_tobs demo_self 1 <> [] /\ vov demo_self <> 0 /\
  exists (L : locals) (fwd sig : list R) (g' : nat),
    cond_spot_sigma demo_bm_incr demo_tobs demo_simps demo_self 0%nat 1
    = Ok ((fwd, sig), g') /\
    length fwd = 2%nat /\
    forall j, (j < 2)%nat ->
      exists sf si sv sinv,
        sigma_final L !! j = Some sf /\ int_sigma L !! j = Some si /\
        int_var L !! j = Some sv /\ int_sigma_inv L !! j = Some sinv /\
        fwd !! j = Some (fwd_cond_spec demo_self sf si sv sinv).
Proof.
  split; [apply demo_bm_shape|]. split; [discriminate|].
  split; [simpl; lra|].
  destruct (fwd_cond_formula nat demo_bm_incr demo_tobs demo_simps demo_self
              (demo_bm_shape demo_self) 0%nat 1)
    as (L & fwd & sig & g' & _ & Hc & _ & _ & _ & _ & _ & Hlen & Hent);
    [discriminate | simpl; lra |].
  exists L, fwd, sig, g'. split; [exact Hc|]. split; [exact Hlen | exact Hent].
Defined.

Lemma fwd_cond_uncorrelated_witness :
  bm_shape demo_bm_incr demo_self_rho0 /\
  demo_tobs demo_self_rho0 1 <> [] /\ rho demo_self_rho0 = 0 /\
  vov demo_self_rho0 <> 0 /\ 0 < sigma demo_self_rho0 /\
  exists (fwd sig : list R) (g' : nat),
    cond_spot_sigma demo_bm_incr demo_tobs demo_simps demo_self_rho0 0%nat 1
    = Ok ((fwd, sig), g') /\
    fwd = [1; 1].
Proof.
  split; [apply demo_bm_shape|]. split; [discriminate|].
  split; [reflexivity|]. split; [simpl; lra|]. split; [simpl; lra|].
  apply (fwd_cond_uncorrelated nat demo_bm_incr demo_tobs demo_simps demo_self_rho0
           (demo_bm_shape demo_self_rho0) 0%nat 1);
    [discriminate | reflexivity | simpl; lra | simpl; lra].
Defined.




Lemma path_integrals_rescaled_witness :
  bm_shape demo_bm_incr demo_self /\
  exists (L : locals) (g' : nat),
    cond_spot_sigma_locals demo_bm_incr demo_tobs demo_simps demo_self 0%nat 1
    = Ok (L, g') /\
    n_dt L = 2%nat /\
    length (var_paths L) = 3%nat /\
    int_var L
    = [demo_simps (Np.column (var_paths L) 0) 1 * (1 / INR 2);
       demo_simps (Np.column (var_paths L) 1) 1 * (1 / INR 2)].
Proof.
  split; [apply demo_bm_shape|].
  destruct (path_integrals_rescaled nat demo_bm_incr demo_tobs demo_simps demo_self
              (demo_bm_shape demo_self) 0%nat 1)
    as (L & g' & HL & _ & Hn & Hrows & _ & _ & Hvar & _).
  exists L, g'. split; [exact HL|]. split; [exact Hn|].
  split; [rewrite Hrows, Hn; reflexivity|].
  rewrite Hvar, Hn. reflexivity.
Defined.

Lemma vov_zero_raises_witness :
  bm_shape demo_bm_incr demo_self_vov0 /\ vov demo_self_vov0 = 0 /\
  cond_spot_sigma demo_bm_incr demo_tobs demo_simps demo_self_vov0 3%nat 2
  = Raise ZeroDivisionError.
Proof.
  split; [apply demo_bm_shape|]. split; [reflexivity|].
  destruct (vov_zero_raises nat demo_bm_incr demo_tobs demo_simps demo_self_vov0
              (demo_bm_shape demo_self_vov0) 3%nat 2)
    as (L & g' & _ & _ & _ & _ & H); [reflexivity | exact H].
Defined.

(** C10 as stated fails: with [vov = 0] the call does not return a
    [fwd_cond] array, it raises [ZeroDivisionError]. *)
Lemma vov_zero_no_fwd_cond :
  bm_shape demo_bm_incr demo_self_vov0_mr /\ vov demo_self_vov0_mr = 0 /\
  cond_spot_sigma demo_bm_incr demo_tobs demo_simps demo_self_vov0_mr 0%nat 1
  = Raise ZeroDivisionError /\
  ~ exists fwd sig g',
      cond_spot_sigma demo_bm_incr demo_tobs demo_simps demo_self_vov0_mr 0%nat 1
      = Ok ((fwd, sig), g').
Proof.
  assert (H : cond_spot_sigma demo_bm_incr demo_tobs demo_simps demo_self_vov0_mr 0%nat 1
              = Raise ZeroDivisionError)
    by (run_model; rewrite py_truediv_zero; reflexivity).
  split; [apply demo_bm_shape|]. split; [reflexivity|]. split; [exact H|].
  intros (fwd & sig & g' & Hr). rewrite H in Hr. discriminate.
Qed.

(** ** Beyond the claims: broadcasting and exceptions of the numpy operations *)

Lemma for_each_app {S X} (body : S -> X -> result S) (xs ys : list X) (s : S) :
  for_each body (xs ++ ys) s = bind (for_each body xs s) (for_each body ys).
Proof.
  revert s. induction xs as [|x xs IH]; intros s; [reflexivity|].
  simpl. destruct (body s x) as [s'|e]; [apply IH | reflexivity].
Qed.

Lemma fmap_zip_replicate (f : R -> R -> R) (a : list R) (y : R) :
  (fun x => f x y) <$> a = zip_with f a (replicate (length a) y).
Proof. induction a as [|x a IH]; [reflexivity|]. simpl. f_equal. exact IH. Qed.

Lemma broadcast2_right1 (f : R -> R -> R) (a : list R) (y : R) :
  length a <> 1%nat ->
  Np.broadcast2 f a [y] = Ok (zip_with f a (replicate (length a) y)).
Proof.
  intros Ha. unfold Np.broadcast2.
  destruct (decide _) as [E|_]; [simpl in E; congruence|].
  rewrite <- fmap_zip_replicate.
  destruct a as [|x [|x' a]]; [reflexivity | simpl in Ha; congruence | reflexivity].
Qed.

Lemma broadcast2_left1 (f : R -> R -> R) (x : R) (b : list R) :
  length b <> 1%nat -> Np.broadcast2 f [x] b = Ok (f x <$> b).
Proof.
  intros Hb. unfold Np.broadcast2.
  destruct (decide _) as [E|_]; [simpl in E; congruence | reflexivity].
Qed.

Lemma broadcast2_mismatch (f : R -> R -> R) (a b : list R) :
  length a <> length b -> length a <> 1%nat -> length b <> 1%nat ->
  Np.broadcast2 f a b = Raise ValueError.
Proof.
  intros Hab Ha Hb. unfold Np.broadcast2.
  destruct (decide _) as [E|_]; [contradiction|].
  destruct a as [|x [|x' a]]; destruct b as [|y [|y' b]];
    simpl in *; congruence.
Qed.

Lemma set_row_same (m : list (list R)) (i : nat) (r v : list R) :
  m !! i = Some r -> length v = length r -> Np.set_row m i v = Ok (<[i := v]> m).
Proof.
  intros Hr Hv. unfold Np.set_row. rewrite Hr.
  destruct (decide _); [reflexivity | contradiction].
Qed.

Lemma set_row_mismatch (m : list (list R)) (i : nat) (r v : list R) :
  m !! i = Some r -> length v <> length r -> length v <> 1%nat ->
  Np.set_row m i v = Raise ValueError.
Proof.
  intros Hr Hv Hv1. unfold Np.set_row. rewrite Hr.
  destruct (decide _); [contradiction|].
  destruct v as [|x [|x' v]]; simpl in *; congruence.
Qed.

(** ** Beyond the claims: the loop of [vol_paths] for any drawn matrix *)

Section AnyDraw.

Variable self : GarchCondMC.
Variable Z : list (list R).
Variable n : nat.

Lemma bcast_row_length (z : list R) : length (bcast_row self z) = n_path self.
Proof.
  unfold bcast_row. destruct (decide _); [assumption | apply length_replicate].
Qed.

Lemma bcast_incr (k : nat) (z : list R) :
  Z !! k = Some z -> forall j, nth j (bcast_row self z) 0 = incr (bcast self Z) k j.
Proof.
  intros Hz j. unfold incr, bcast.
  assert (H : (bcast_row self <$> Z) !! k = Some (bcast_row self z))
    by now rewrite list_lookup_fmap, Hz.
  now rewrite (nth_lookup_Some _ _ [] _ H).
Qed.

(** What one pass through lines 46-55 does, whatever was drawn. *)
Lemma vol_paths_step_spec (w_t : list (list R)) (w_prev : list R) (k : nat) :
  shape_inv self n w_t -> (k < n)%nat -> w_t !! k = Some w_prev ->
  vol_paths_step self Z w_t (S k)
  = match Z !! k with
    | None => Raise IndexError
    | Some z =>
        if decide (length z = n_path self \/ length z = 1%nat)
        then Ok (<[S k := next_row self w_prev (bcast_row self z)]> w_t)
        else Raise ValueError
    end.
Proof.
  intros [Hlen Hcols] Hk Hprev.
  assert (Hp : length w_prev = n_path self)
    by (eapply Forall_lookup_1 in Hcols; eauto).
  destruct (lookup_lt_is_Some_2 w_t (S k)) as [r Hr]; [lia|].
  assert (Hrlen : length r = n_path self)
    by (eapply Forall_lookup_1 in Hcols; eauto).
  unfold vol_paths_step, Np.row, Np.add, next_row.
  replace (S k - 1)%nat with k by lia. rewrite Hprev. cbn [bind].
  rewrite broadcast2_same by now rewrite length_fmap. cbn [bind].
  destruct (Z !! k) as [z|]; [|reflexivity]. cbn [bind].
  set (s := zip_with Rplus w_prev _).
  assert (Hs : length s = n_path self)
    by (unfold s; rewrite length_zip_with, length_fmap; lia).
  unfold bcast_row.
  destruct (decide (length z = n_path self)) as [Hz|Hz].
  - rewrite broadcast2_same by (rewrite length_fmap; lia). cbn [bind].
    rewrite (set_row_same _ _ r)
      by (try exact Hr; rewrite length_zip_with, length_fmap; lia).
    destruct (decide (_ \/ _)) as [_|No]; [reflexivity | exfalso; apply No; now left].
  - destruct (decide (length z = 1%nat)) as [Hz1|Hz1].
    + destruct z as [|y [|y' z]]; simpl in Hz1; try congruence.
      change ((fun x => vov self * sqrt (dt self) * x) <$> [y])
        with [vov self * sqrt (dt self) * y].
      rewrite broadcast2_right1 by (simpl in Hz; lia). cbn [bind].
      rewrite (set_row_same _ _ r)
        by (try exact Hr; rewrite length_zip_with, length_replicate; lia).
      destruct (decide (_ \/ _)) as [_|No]; [|exfalso; apply No; now right].
      rewrite Hs, fmap_replicate. reflexivity.
    + destruct (decide (_ \/ _)) as [[?|?]|_]; [contradiction | contradiction |].
      destruct (decide (length s = 1%nat)) as [Hs1|Hs1].
      * destruct s as [|x [|x' s']] eqn:Es; simpl in Hs1; try congruence.
        rewrite broadcast2_left1 by (rewrite length_fmap; exact Hz1). cbn [bind].
        apply (set_row_mismatch _ _ r); [exact Hr | |];
          rewrite !length_fmap; simpl in Hs; lia.
      * rewrite broadcast2_mismatch; [reflexivity | | exact Hs1 |];
          rewrite length_fmap; lia.
Qed.

Local Abbreviation inv := (loop_inv self (bcast self Z) n).

Lemma loop_inv_shape (k : nat) (w_t : list (list R)) :
  inv k w_t -> shape_inv self n w_t.
Proof. intros (H1 & H2 & _). now split. Qed.

Lemma step_any_ok (k : nat) (w_t : list (list R)) (z : list R) :
  inv k w_t -> (k < n)%nat -> Z !! k = Some z -> row_ok self z ->
  exists w_t', vol_paths_step self Z w_t (S k) = Ok w_t' /\ inv (S k) w_t'.
Proof.
  intros Hinv Hk Hz Hok. pose proof (loop_inv_shape k w_t Hinv) as Hsh.
  destruct Hinv as (Hlen & Hcols & Hrows).
  rewrite (vol_paths_step_spec w_t _ k Hsh Hk (Hrows k ltac:(lia))), Hz.
  destruct (decide (_ \/ _)) as [_|No]; [|contradiction].
  unfold next_row.
  rewrite (step_row self (bcast self Z) _ eq_refl k (bcast_row self z)
             (bcast_row_length z) (bcast_incr k z Hz)).
  eexists. split; [reflexivity|].
  split; [now rewrite length_insert|]. split.
  - apply Forall_insert; [exact Hcols|]. now rewrite length_fmap, length_seq.
  - intros i Hi. destruct (decide (i = S k)) as [->|Hne].
    + apply list_lookup_insert_eq. lia.
    + rewrite list_lookup_insert_ne by lia. apply Hrows. lia.
Qed.

Lemma loop_any_ok (m k : nat) (w_t : list (list R)) :
  inv k w_t -> (k + m <= n)%nat ->
  (forall i, (k <= i < k + m)%nat -> exists z, Z !! i = Some z /\ row_ok self z) ->
  exists w_t', for_each (vol_paths_step self Z) (seq (S k) m) w_t = Ok w_t'
               /\ inv (k + m) w_t'.
Proof.
  revert k w_t. induction m as [|m IH]; intros k w_t Hinv Hkm Hrows.
  - exists w_t. replace (k + 0)%nat with k by lia. now split.
  - destruct (Hrows k ltac:(lia)) as (z & Hz & Hok).
    destruct (step_any_ok k w_t z Hinv ltac:(lia) Hz Hok) as (w1 & Hstep & Hinv1).
    destruct (IH (S k) w1 Hinv1 ltac:(lia)) as (w2 & Hrest & Hinv2).
    { intros i Hi. apply Hrows. lia. }
    exists w2. split.
    + simpl. rewrite Hstep. exact Hrest.
    + replace (k + S m)%nat with (S k + m)%nat by lia. exact Hinv2.
Qed.

Lemma fill_row_any :
  exists w_t, Np.fill_row (Np.zeros (n + 1) (n_path self)) 0 (2 * ln (sigma self)) = Ok w_t
              /\ inv 0 w_t.
Proof.
  unfold Np.fill_row, Np.zeros. replace (n + 1)%nat with (S n) by lia. simpl.
  rewrite length_replicate. eexists. split; [reflexivity|].
  split; [simpl; rewrite length_replicate; lia|]. split.
  - constructor; [apply length_replicate|].
    apply Forall_replicate, length_replicate.
  - intros i Hi. replace i with 0%nat by lia. simpl.
    now rewrite (fmap_const_seq (2 * ln (sigma self))).
Qed.

Lemma loop_inv_rows (w_t : list (list R)) :
  inv n w_t -> w_t = w_rows self (bcast self Z) n.
Proof.
  intros (Hlen & _ & Hrows). apply list_eq. intros i. unfold w_rows.
  rewrite list_lookup_fmap.
  destruct (decide (i < n + 1)%nat) as [Hi|Hi].
  - rewrite lookup_seq_lt by lia. simpl. apply Hrows. lia.
  - rewrite lookup_seq_ge by lia. simpl. apply lookup_ge_None_2. lia.
Qed.

(** The loop when the first [n] drawn rows are all acceptable. *)
Lemma loop_any_closed :
  (forall i, (i < n)%nat -> exists z, Z !! i = Some z /\ row_ok self z) ->
  bind (Np.fill_row (Np.zeros (n + 1) (n_path self)) 0 (2 * ln (sigma self)))
    (for_each (vol_paths_step self Z) (seq 1 n))
  = Ok (w_rows self (bcast self Z) n).
Proof.
  intros Hrows. destruct fill_row_any as (w0 & Hfill & Hinv0).
  destruct (loop_any_ok n 0 w0 Hinv0 ltac:(lia)) as (w1 & Hloop & Hinv1).
  { intros i Hi. apply Hrows. lia. }
  rewrite Hfill. cbn [bind]. rewrite Hloop. f_equal. now apply loop_inv_rows.
Qed.

(** The loop when the first [k < n] drawn rows are acceptable and row [k]
    is missing or has a width that does not broadcast. *)
Lemma loop_any_fails (k : nat) :
  (k < n)%nat ->
  (forall i, (i < k)%nat -> exists z, Z !! i = Some z /\ row_ok self z) ->
  bind (Np.fill_row (Np.zeros (n + 1) (n_path self)) 0 (2 * ln (sigma self)))
    (for_each (vol_paths_step self Z) (seq 1 n))
  = match Z !! k with
    | None => Raise IndexError
    | Some z =>
        if decide (length z = n_path self \/ length z = 1%nat)
        then bind (Np.fill_row (Np.zeros (n + 1) (n_path self)) 0 (2 * ln (sigma self)))
               (for_each (vol_paths_step self Z) (seq 1 n))
        else Raise ValueError
    end.
Proof.
  intros Hk Hrows. destruct (Z !! k) as [z|] eqn:Hz.
  - destruct (decide (_ \/ _)) as [_|No]; [reflexivity|].
    destruct fill_row_any as (w0 & Hfill & Hinv0).
    destruct (loop_any_ok k 0 w0 Hinv0 ltac:(lia)) as (w1 & Hloop & Hinv1).
    { intros i Hi. apply Hrows. lia. }
    rewrite Hfill. cbn [bind].
    assert (Hseq : seq 1 n = seq 1 k ++ seq (S k) (S (n - S k)))
      by (change (S k) with (1 + k)%nat; rewrite <- seq_app; f_equal; lia).
    rewrite Hseq, for_each_app, Hloop. cbn [bind]. simpl.
    destruct Hinv1 as (H1 & H2 & H3).
    rewrite (vol_paths_step_spec w1 _ k (conj H1 H2) Hk (H3 k ltac:(lia))), Hz.
    destruct (decide (_ \/ _)) as [?|_]; [contradiction | reflexivity].
  - destruct fill_row_any as (w0 & Hfill & Hinv0).
    destruct (loop_any_ok k 0 w0 Hinv0 ltac:(lia)) as (w1 & Hloop & Hinv1).
    { intros i Hi. apply Hrows. lia. }
    rewrite Hfill. cbn [bind].
    assert (Hseq : seq 1 n = seq 1 k ++ seq (S k) (S (n - S k)))
      by (change (S k) with (1 + k)%nat; rewrite <- seq_app; f_equal; lia).
    rewrite Hseq, for_each_app, Hloop. cbn [bind]. simpl.
    destruct Hinv1 as (H1 & H2 & H3).
    now rewrite (vol_paths_step_spec w1 _ k (conj H1 H2) Hk (H3 k ltac:(lia))), Hz.
Qed.

(** The loop keeps the shape of [w_t] and raises nothing but [IndexError]
    and [ValueError]. *)
Lemma loop_any_outcome (steps : list nat) (w_t : list (list R)) :
  shape_inv self n w_t -> Forall (fun i => (1 <= i <= n)%nat) steps ->
  match for_each (vol_paths_step self Z) steps w_t with
  | Ok w_t' => shape_inv self n w_t'
  | Raise e => e = IndexError \/ e = ValueError
  end.
Proof.
  revert w_t. induction steps as [|i steps IH]; intros w_t Hsh Hall; [exact Hsh|].
  apply Forall_cons in Hall as [Hi Hall]. simpl.
  destruct i as [|k]; [lia|].
  destruct (lookup_lt_is_Some_2 w_t k) as [w_prev Hprev]; [destruct Hsh; lia|].
  rewrite (vol_paths_step_spec w_t w_prev k Hsh ltac:(lia) Hprev).
  destruct (Z !! k) as [z|]; [|now left].
  destruct (decide (_ \/ _)) as [_|_]; [|now right].
  cbn [bind]. apply IH; [|exact Hall].
  destruct Hsh as [H1 H2]. split; [now rewrite length_insert|].
  apply Forall_insert; [exact H2|].
  unfold next_row. rewrite !length_zip_with, !length_fmap, bcast_row_length.
  eapply Forall_lookup_1 in H2; eauto. lia.
Qed.

End AnyDraw.

(** ** Beyond the claims: [vol_paths] for any generator *)

Section AnyGenerator.

Variable rng : Type.
Variable _bm_incr : GarchCondMC -> rng -> list R -> bool -> list (list R) * rng.
Variable self_tobs : GarchCondMC -> R -> list R.
Variable simps : list R -> R -> R.
Variable self : GarchCondMC.

Local Abbreviation Zof g n := (drawn _bm_incr self g n).1.

Lemma vol_paths_as_loop (g : rng) (tobs : list R) :
  vol_paths _bm_incr self g tobs
  = bind (bind (Np.fill_row (Np.zeros (length tobs + 1) (n_path self)) 0
                  (2 * ln (sigma self)))
            (for_each (vol_paths_step self (Zof g (length tobs))) (seq 1 (length tobs))))
      (fun w_t => Ok (Np.map2d exp w_t, (drawn _bm_incr self g (length tobs)).2)).
Proof.
  unfold vol_paths, drawn.
  destruct (_bm_incr self g _ false) as [Z g']. cbn [fst snd].
  now rewrite bind_assoc.
Qed.

(** X1: on an empty grid [vol_paths] asks the generator for no increment,
    skips the loop and returns the single row [sigma ** 2], whatever the
    generator returns. *)
Theorem vol_paths_empty_grid (g : rng) :
  0 < sigma self ->
  vol_paths _bm_incr self g []
  = Ok ([replicate (n_path self) (sigma self ^ 2)], (_bm_incr self g [] false).2).
Proof.
  intros Hsigma. rewrite vol_paths_as_loop. unfold drawn.
  change (length (@nil R)) with 0%nat. rewrite arange_index.
  change (INR <$> seq 1 0) with (@nil R).
  unfold Np.fill_row, Np.zeros, Np.map2d. simpl.
  rewrite length_replicate, fmap_replicate, exp_2ln by exact Hsigma.
  reflexivity.
Qed.

(** X2: for any generator, with [vov ** 2] in the float range: a matrix
    that [vol_paths] returns has [n_dt + 1] rows of [n_path] entries and
    comes with the generator state left by the single draw on [1..n_dt];
    and [vol_paths] raises nothing but [IndexError] and [ValueError]. *)
Theorem vol_paths_outcome (g : rng) (tobs : list R) :
  pow2_in_range (vov self) ->
  match vol_paths _bm_incr self g tobs with
  | Ok (V, g') =>
      length V = (length tobs + 1)%nat /\
      Forall (fun r : list R => length r = n_path self) V /\
      g' = (_bm_incr self g (INR <$> seq 1 (length tobs)) false).2
  | Raise e => e = IndexError \/ e = ValueError
  end.
Proof.
  intros _. rewrite vol_paths_as_loop.
  destruct (fill_row_any self (Zof g (length tobs)) (length tobs))
    as (w0 & Hfill & Hinv0).
  rewrite Hfill. cbn [bind].
  pose proof (loop_any_outcome self (Zof g (length tobs)) (length tobs)
                (seq 1 (length tobs)) w0
                (loop_inv_shape self _ _ 0 w0 Hinv0)) as Hout.
  destruct (for_each _ _ w0) as [w1|e].
  - cbn [bind]. destruct Hout as [H1 H2].
    { apply Forall_forall. intros i Hi. apply elem_of_seq in Hi. lia. }
    split; [now rewrite map2d_length|]. split.
    + unfold Np.map2d. apply Forall_fmap. eapply Forall_impl; [exact H2|].
      intros r Hr. simpl. now rewrite length_fmap.
    + unfold drawn. now rewrite arange_index.
  - cbn [bind]. apply Hout.
    apply Forall_forall. intros i Hi. apply elem_of_seq in Hi. lia.
Qed.

(** X3: rows of a single entry are broadcast: when each of the first
    [n_dt] drawn rows has [n_path] entries or one,
    [vol_paths] returns the matrix of the recurrence in which a one-entry
    row gives its entry to every path. *)
Theorem vol_paths_broadcast (g : rng) (tobs : list R) :
  (forall i, (i < length tobs)%nat ->
             exists z, Zof g (length tobs) !! i = Some z /\ row_ok self z) ->
  vol_paths _bm_incr self g tobs
  = Ok (Np.map2d exp (w_rows self (bcast self (Zof g (length tobs))) (length tobs)),
        (drawn _bm_incr self g (length tobs)).2) /\
  (forall k y j, Zof g (length tobs) !! k = Some [y] -> (j < n_path self)%nat ->
                 incr (bcast self (Zof g (length tobs))) k j = y) /\
  (forall k z j, Zof g (length tobs) !! k = Some z -> length z = n_path self ->
                 incr (bcast self (Zof g (length tobs))) k j = nth j z 0).
Proof.
  intros Hrows. split; [|split].
  - rewrite vol_paths_as_loop, (loop_any_closed self _ _ Hrows). reflexivity.
  - intros k y j Hk Hj. rewrite <- (bcast_incr self _ k [y] Hk).
    unfold bcast_row. destruct (decide _) as [E|_].
    + simpl in E. destruct j; [reflexivity | lia].
    + simpl. apply (nth_lookup_Some _ _ 0 y). now apply lookup_replicate_2.
  - intros k z j Hk Hz. rewrite <- (bcast_incr self _ k z Hk).
    unfold bcast_row. now destruct (decide _).
Qed.

(** X4: when the generator returns fewer rows than the grid has points,
    all of them acceptable, [vol_paths] raises [IndexError] (at
    [rn_norm[i - 1, :]] of the first step without a row). *)
Theorem vol_paths_short_draw (g : rng) (tobs : list R) :
  (length (Zof g (length tobs)) < length tobs)%nat ->
  Forall (row_ok self) (Zof g (length tobs)) ->
  vol_paths _bm_incr self g tobs = Raise IndexError.
Proof.
  intros Hshort Hok. rewrite vol_paths_as_loop.
  rewrite (loop_any_fails self _ _ (length (Zof g (length tobs))) Hshort).
  - now rewrite lookup_ge_None_2 by lia.
  - intros i Hi. destruct (lookup_lt_is_Some_2 (Zof g (length tobs)) i Hi) as [z Hz].
    exists z. split; [exact Hz|]. eapply Forall_lookup_1 in Hok; eauto.
Qed.

(** X5: when the first drawn row that is not acceptable has a width other
    than [n_path] and 1, [vol_paths] raises [ValueError] (the sum on lines
    46-55 or the assignment to [w_t[i, :]] does not broadcast). *)
Theorem vol_paths_bad_width (g : rng) (tobs : list R) (k : nat) (z : list R) :
  (k < length tobs)%nat ->
  (forall i, (i < k)%nat ->
             exists z', Zof g (length tobs) !! i = Some z' /\ row_ok self z') ->
  Zof g (length tobs) !! k = Some z ->
  length z <> n_path self -> length z <> 1%nat ->
  vol_paths _bm_incr self g tobs = Raise ValueError.
Proof.
  intros Hk Hrows Hz Hw Hw1. rewrite vol_paths_as_loop.
  rewrite (loop_any_fails self _ _ k Hk Hrows), Hz.
  destruct (decide (_ \/ _)) as [[?|?]|_]; [contradiction | contradiction | reflexivity].
Qed.

(** X6: an exception of [vol_paths] ends [cond_spot_sigma] before any
    division is reached: with a generator that returns too few rows the
    call raises [IndexError], also when [vov = 0]. *)
Theorem cond_spot_sigma_short_draw (g : rng) (texp : R) :
  (length (Zof g (length (self_tobs self texp))) < length (self_tobs self texp))%nat ->
  Forall (row_ok self) (Zof g (length (self_tobs self texp))) ->
  cond_spot_sigma _bm_incr self_tobs simps self g texp = Raise IndexError.
Proof.
  intros Hshort Hok. unfold cond_spot_sigma, cond_spot_sigma_locals.
  pose proof (vol_paths_as_loop g (self_tobs self texp)) as Hloop.
  rewrite (loop_any_fails self _ _ (length (Zof g (length (self_tobs self texp)))) Hshort)
    in Hloop.
  - rewrite lookup_ge_None_2 in Hloop by lia. rewrite Hloop. reflexivity.
  - intros i Hi.
    destruct (lookup_lt_is_Some_2 (Zof g (length (self_tobs self texp))) i Hi) as [z Hz].
    exists z. split; [exact Hz|]. eapply Forall_lookup_1 in Hok; eauto.
Qed.

End AnyGenerator.

Lemma fmap_const_seq_nat {A} (x : A) (s n : nat) :
  (fun _ : nat => x) <$> seq s n = replicate n x.
Proof.
  revert s. induction n as [|n IH]; intros s; simpl; [reflexivity | now rewrite IH].
Qed.

(** ** Beyond the claims: the recurrence of the log-variance *)

Section Dynamics.

Variable self : GarchCondMC.

Lemma w_spec_local (Z1 Z2 : list (list R)) (i j : nat) :
  (forall k, (k < i)%nat -> incr Z1 k j = incr Z2 k j) ->
  w_spec self Z1 i j = w_spec self Z2 i j.
Proof.
  induction i as [|i IH]; intros H; [reflexivity|].
  simpl. rewrite IH by (intros k Hk; apply H; lia).
  now rewrite (H i) by lia.
Qed.

Lemma w_spec_no_vov (Z : list (list R)) (i j : nat) :
  vov self = 0 -> w_spec self Z i j = w_spec self [] i 0.
Proof.
  intros Hvov. induction i as [|i IH]; [reflexivity|].
  cbn [w_spec]. rewrite IH. unfold w_next. rewrite Hvov. ring.
Qed.

Lemma w_spec_constant (Z : list (list R)) (i j : nat) :
  vov self = 0 -> 0 < sigma self -> mr self = 0 \/ theta self = sigma self ^ 2 ->
  w_spec self Z i j = 2 * ln (sigma self).
Proof.
  intros Hvov Hsigma Hcase. induction i as [|i IH]; [reflexivity|].
  cbn [w_spec]. rewrite IH. unfold w_next. rewrite Hvov.
  destruct Hcase as [Hmr|Htheta].
  - rewrite Hmr. field.
  - rewrite exp_Ropp, exp_2ln, Htheta by exact Hsigma.
    field. lra.
Qed.

Lemma w_spec_lognormal (Z : list (list R)) (i j : nat) :
  mr self = 0 ->
  w_spec self Z i j
  = 2 * ln (sigma self)
    + (vov self * sqrt (dt self) * sum_incr Z i j - vov self ^ 2 / 2 * dt self * INR i).
Proof.
  intros Hmr. induction i as [|i IH].
  - simpl. ring.
  - cbn [w_spec sum_incr]. rewrite IH, S_INR. unfold w_next. rewrite Hmr. ring.
Qed.

Lemma ln_sqrt_exp (w : R) : 2 * ln (sqrt (exp w)) = w.
Proof.
  assert (H : exp w = Rsqr (exp (w / 2))).
  { unfold Rsqr. rewrite <- exp_plus. f_equal. lra. }
  rewrite H, sqrt_Rsqr by (left; apply exp_pos). rewrite ln_exp. lra.
Qed.

Lemma w_spec_restart (Z Z' : list (list R)) (n m i j : nat) :
  (i <= m)%nat ->
  (forall k, (k < m)%nat -> incr Z' k j = incr Z (n + k) j) ->
  w_spec (with_sigma self (sqrt (exp (w_spec self Z n j)))) Z' i j
  = w_spec self Z (n + i) j.
Proof.
  intros Hi HZ. induction i as [|i IH].
  - rewrite Nat.add_0_r. cbn [w_spec with_sigma sigma]. apply ln_sqrt_exp.
  - rewrite Nat.add_succ_r. cbn [w_spec]. rewrite IH by lia.
    rewrite (HZ i) by lia. reflexivity.
Qed.

End Dynamics.

(** ** Beyond the claims: what the paths and the conditional moments satisfy *)

Section Contract.

Variable rng : Type.
Variable _bm_incr : GarchCondMC -> rng -> list R -> bool -> list (list R) * rng.
Variable self_tobs : GarchCondMC -> R -> list R.
Variable simps : list R -> R -> R.
Variable self : GarchCondMC.
Hypothesis shape : bm_shape _bm_incr self.

Local Abbreviation Zof g n := (drawn _bm_incr self g n).1.

(** X7: entry [(i, j)] of the variance matrix depends on the draws only
    through the first [i] increments of path [j]: two generator states whose
    draws agree there give the same entry. *)
Theorem vol_paths_path_local (g1 g2 : rng) (tobs : list R) (i j : nat) :
  (i <= length tobs)%nat -> (j < n_path self)%nat ->
  (forall k, (k < i)%nat ->
             incr (Zof g1 (length tobs)) k j = incr (Zof g2 (length tobs)) k j) ->
  exists (V1 V2 : list (list R)) (g1' g2' : rng) (x : R),
    vol_paths _bm_incr self g1 tobs = Ok (V1, g1') /\
    vol_paths _bm_incr self g2 tobs = Ok (V2, g2') /\
    Np.entry V1 i j = Some x /\ Np.entry V2 i j = Some x.
Proof.
  intros Hi Hj Hagree. do 5 eexists.
  split; [apply (vol_paths_closed _ _ _ shape)|].
  split; [apply (vol_paths_closed _ _ _ shape)|].
  rewrite !entry_map2d_w_rows by assumption.
  split; [reflexivity|]. f_equal. f_equal. symmetry. now apply w_spec_local.
Qed.

(** X8: with [vov = 0] the variance matrix is deterministic: one sequence
    of values, the same for every path, every generator state and every
    grid, gives row [i] of the result. *)
Theorem vol_paths_no_vov :
  vov self = 0 ->
  exists v : nat -> R,
    forall (g : rng) (tobs : list R),
    exists (V : list (list R)) (g' : rng),
      vol_paths _bm_incr self g tobs = Ok (V, g') /\
      forall i j, (i <= length tobs)%nat -> (j < n_path self)%nat ->
                  Np.entry V i j = Some (v i).
Proof.
  intros Hvov. exists (fun i => exp (w_spec self [] i 0)). intros g tobs.
  do 2 eexists. split; [apply (vol_paths_closed _ _ _ shape)|].
  intros i j Hi Hj. rewrite entry_map2d_w_rows by assumption.
  now rewrite (w_spec_no_vov self _ i j Hvov).
Qed.

(** X9: with [vov = 0], and no mean reversion or [theta = sigma ** 2], the
    variance stays at [sigma ** 2]: every entry of the result is
    [sigma ** 2]. *)
Theorem vol_paths_constant (g : rng) (tobs : list R) :
  vov self = 0 -> 0 < sigma self ->
  mr self = 0 \/ theta self = sigma self ^ 2 ->
  exists g' : rng,
    vol_paths _bm_incr self g tobs
    = Ok (replicate (length tobs + 1) (replicate (n_path self) (sigma self ^ 2)), g').
Proof.
  intros Hvov Hsigma Hcase. eexists.
  rewrite (vol_paths_closed _ _ _ shape). do 2 f_equal.
  unfold Np.map2d, w_rows. rewrite <- list_fmap_compose.
  rewrite <- (fmap_const_seq_nat (replicate (n_path self) (sigma self ^ 2)) 0).
  apply list_fmap_ext. intros _ i _. unfold compose.
  rewrite <- list_fmap_compose, <- (fmap_const_seq (sigma self ^ 2) 0).
  apply list_fmap_ext. intros _ j _. unfold compose.
  now rewrite w_spec_constant, exp_2ln.
Qed.

(** X10: without mean reversion ([mr = 0]) the scheme is the exact
    log-normal one: entry [(i, j)] is
    [sigma**2 * exp(vov*sqrt(dt)*(Z_1 + ... + Z_i) - vov**2/2 * dt * i)]
    with the increments of path [j]. *)
Theorem vol_paths_lognormal (g : rng) (tobs : list R) :
  mr self = 0 -> 0 < sigma self ->
  exists (V : list (list R)) (g' : rng),
    vol_paths _bm_incr self g tobs = Ok (V, g') /\
    forall i j, (i <= length tobs)%nat -> (j < n_path self)%nat ->
      Np.entry V i j
      = Some (sigma self ^ 2
              * exp (vov self * sqrt (dt self) * sum_incr (Zof g (length tobs)) i j
                     - vov self ^ 2 / 2 * dt self * INR i)).
Proof.
  intros Hmr Hsigma. do 2 eexists. split; [apply (vol_paths_closed _ _ _ shape)|].
  intros i j Hi Hj. rewrite entry_map2d_w_rows by assumption.
  now rewrite w_spec_lognormal, exp_plus, exp_2ln.
Qed.

(** X11: the simulation can be restarted: path [j] after [n + i] steps is
    path [j] after [i] steps of the model whose initial volatility is the
    square root of the variance of path [j] after [n] steps, run on the
    increments that follow the first [n]. *)
Theorem vol_paths_restart
  (bm' : GarchCondMC -> rng -> list R -> bool -> list (list R) * rng)
  (g g' : rng) (tobs tobs' : list R) (n i j : nat) (v : R) :
  length tobs = (n + length tobs')%nat ->
  (i <= length tobs')%nat -> (j < n_path self)%nat ->
  (exists V gV, vol_paths _bm_incr self g tobs = Ok (V, gV) /\ Np.entry V n j = Some v) ->
  bm_shape bm' (with_sigma self (sqrt v)) ->
  (forall k, (k < length tobs')%nat ->
             incr (drawn bm' (with_sigma self (sqrt v)) g' (length tobs')).1 k j
             = incr (Zof g (length tobs)) (n + k) j) ->
  exists (V V' : list (list R)) (gV gV' : rng) (x : R),
    vol_paths _bm_incr self g tobs = Ok (V, gV) /\
    vol_paths bm' (with_sigma self (sqrt v)) g' tobs' = Ok (V', gV') /\
    Np.entry V (n + i) j = Some x /\ Np.entry V' i j = Some x.
Proof.
  intros Hlen Hi Hj (V0 & gV0 & HV0 & Hv) shape' Hdraws.
  rewrite (vol_paths_closed _ _ _ shape) in HV0. injection HV0 as <- <-.
  rewrite entry_map2d_w_rows in Hv by (lia || assumption). injection Hv as <-.
  do 5 eexists.
  split; [apply (vol_paths_closed _ _ _ shape)|].
  split; [apply (vol_paths_closed _ _ _ shape')|].
  rewrite entry_map2d_w_rows by (lia || assumption).
  split; [reflexivity|].
  rewrite entry_map2d_w_rows by assumption. f_equal. f_equal.
  now apply w_spec_restart with (m := length tobs').
Qed.

End Contract.

Section Moments.

Variable rng : Type.
Variable _bm_incr : GarchCondMC -> rng -> list R -> bool -> list (list R) * rng.
Variable self_tobs : GarchCondMC -> R -> list R.
Variable simps : list R -> R -> R.
Variable self : GarchCondMC.
Hypothesis shape : bm_shape _bm_incr self.

Local Abbreviation Zof g n := (drawn _bm_incr self g n).1.
Local Abbreviation Lof g texp :=
  (locals_at simps self (Zof g (length (self_tobs self texp)))
     (length (self_tobs self texp)) texp).

(** What [cond_spot_sigma] returns when [vov <> 0]. *)
Lemma cond_spot_sigma_ok (g : rng) (texp : R) :
  vov self <> 0 ->
  exists fwd : list R,
    cond_spot_sigma _bm_incr self_tobs simps self g texp
    = Ok ((fwd, (fun x => rhoc (Lof g texp) * sqrt x) <$> int_var (Lof g texp)),
          (drawn _bm_incr self g (length (self_tobs self texp))).2) /\
    fwd_cond_of self (Lof g texp) = Ok fwd /\
    length fwd = n_path self /\
    forall j x, fwd !! j = Some x -> exists y, x = exp y.
Proof.
  intros Hvov.
  destruct (locals_at_aligned simps self (Zof g (length (self_tobs self texp)))
              (length (self_tobs self texp)) texp) as [Hsf Hal].
  destruct (fwd_cond_of_ok self _ Hvov Hal) as (fwd & Hfwd & Hlen & Hent).
  exists fwd. split; [|split; [exact Hfwd|split; [lia|]]].
  - rewrite (cond_spot_sigma_unfold _ _ _ _ _ shape). cbv zeta. now rewrite Hfwd.
  - intros j x Hx. destruct Hal as (H1 & H2 & H3).
    assert (Hj : (j < n_path self)%nat)
      by (apply lookup_lt_Some in Hx; lia).
    destruct (lookup_some_lt (sigma_final (Lof g texp)) j) as [sf Esf]; [lia|].
    destruct (lookup_some_lt (int_sigma (Lof g texp)) j) as [si Esi]; [lia|].
    destruct (lookup_some_lt (int_var (Lof g texp)) j) as [sv Esv]; [lia|].
    destruct (lookup_some_lt (int_sigma_inv (Lof g texp)) j) as [sinv Esinv]; [lia|].
    rewrite (Hent j sf si sv sinv Esf Esi Esv Esinv) in Hx. injection Hx as <-.
    unfold fwd_cond_spec. eexists. reflexivity.
Qed.

Lemma rhoc_le_1 : sqrt (1 - rho self ^ 2) <= 1.
Proof.
  rewrite <- sqrt_1 at 2. apply sqrt_le_1_alt.
  pose proof (pow2_ge_0 (rho self)). lra.
Qed.

(** X14: for [|rho| <= 1] the conditional volatility never exceeds the
    uncorrelated one: on every path whose [int_var] is non-negative the
    entry of [sigma_cond] lies between 0 and [sqrt(int_var)]. *)
Theorem sigma_cond_bounded (g : rng) (texp : R) :
  vov self <> 0 -> -1 <= rho self <= 1 ->
  exists (L : locals) (fwd sig : list R) (g' : rng),
    cond_spot_sigma_locals _bm_incr self_tobs simps self g texp = Ok (L, g') /\
    cond_spot_sigma _bm_incr self_tobs simps self g texp = Ok ((fwd, sig), g') /\
    forall j sv, int_var L !! j = Some sv -> 0 <= sv ->
      exists s, sig !! j = Some s /\ 0 <= s <= sqrt sv.
Proof.
  intros Hvov _. destruct (cond_spot_sigma_ok g texp Hvov) as (fwd & Hc & _).
  do 4 eexists. split; [apply (locals_closed _ _ _ _ _ shape)|].
  split; [exact Hc|]. cbv zeta.
  intros j sv Hsv _. eexists. split.
  - rewrite list_lookup_fmap, Hsv. reflexivity.
  - change (rhoc (Lof g texp)) with (sqrt (1 - rho self ^ 2)).
    split; [apply Rmult_le_pos; apply sqrt_pos|].
    rewrite <- (Rmult_1_l (sqrt sv)) at 2.
    apply Rmult_le_compat_r; [apply sqrt_pos | apply rhoc_le_1].
Qed.

(** X15: with perfect correlation, [rho = 1] or [rho = -1], nothing of the
    spot's own noise is left: on every path whose [int_var] is
    non-negative the entry of [sigma_cond] is 0. *)
Theorem sigma_cond_perfect_correlation (g : rng) (texp : R) :
  vov self <> 0 -> rho self = 1 \/ rho self = -1 ->
  exists (L : locals) (fwd sig : list R) (g' : rng),
    cond_spot_sigma_locals _bm_incr self_tobs simps self g texp = Ok (L, g') /\
    cond_spot_sigma _bm_incr self_tobs simps self g texp = Ok ((fwd, sig), g') /\
    forall j sv, int_var L !! j = Some sv -> 0 <= sv -> sig !! j = Some 0.
Proof.
  intros Hvov Hrho. destruct (cond_spot_sigma_ok g texp Hvov) as (fwd & Hc & _).
  do 4 eexists. split; [apply (locals_closed _ _ _ _ _ shape)|].
  split; [exact Hc|]. cbv zeta.
  intros j sv Hsv _. rewrite list_lookup_fmap, Hsv. cbn [fmap option_fmap option_map].
  f_equal. change (rhoc (Lof g texp)) with (sqrt (1 - rho self ^ 2)).
  assert (H0 : 1 - rho self ^ 2 = 0) by (destruct Hrho as [-> | ->]; simpl; lra).
  rewrite H0, sqrt_0. apply Rmult_0_l.
Qed.

(** X16: on a path whose [int_var] is non-negative, and for [|rho| <= 1],
    the square of [sigma_cond] is [(1 - rho**2) * int_var]. *)
Theorem sigma_cond_square (g : rng) (texp : R) :
  vov self <> 0 -> -1 <= rho self <= 1 ->
  exists (L : locals) (fwd sig : list R) (g' : rng),
    cond_spot_sigma_locals _bm_incr self_tobs simps self g texp = Ok (L, g') /\
    cond_spot_sigma _bm_incr self_tobs simps self g texp = Ok ((fwd, sig), g') /\
    forall j sv, int_var L !! j = Some sv -> 0 <= sv ->
      exists s, sig !! j = Some s /\ s ^ 2 = (1 - rho self ^ 2) * sv.
Proof.
  intros Hvov Hrho. destruct (cond_spot_sigma_ok g texp Hvov) as (fwd & Hc & _).
  do 4 eexists. split; [apply (locals_closed _ _ _ _ _ shape)|].
  split; [exact Hc|]. cbv zeta.
  intros j sv Hsv Hpos. eexists. split.
  - rewrite list_lookup_fmap, Hsv. reflexivity.
  - change (rhoc (Lof g texp)) with (sqrt (1 - rho self ^ 2)).
    assert (H1 : 0 <= 1 - rho self ^ 2) by (simpl; nra).
    rewrite Rpow_mult_distr, !pow2_sqrt by assumption. reflexivity.
Qed.

End Moments.

(** ** The properties beyond the claims on concrete instances *)

Lemma demo_drawn (self : GarchCondMC) (g n : nat) :
  (drawn demo_bm_incr self g n).1
  = (fun _ : R => replicate (n_path self) (INR (g mod 2))) <$> (INR <$> seq 1 n).
Proof. unfold drawn, demo_bm_incr. cbn [fst]. now rewrite arange_index. Qed.

Lemma vol_paths_empty_grid_witness :
  0 < sigma demo_self /\
  vol_paths demo_bm_incr demo_self 0%nat [] = Ok ([[0.2 ^ 2; 0.2 ^ 2]], 1%nat).
Proof.
  split; [simpl; lra|].
  apply (vol_paths_empty_grid nat demo_bm_incr demo_self 0%nat). simpl. lra.
Defined.

Lemma vol_paths_outcome_witness :
  pow2_in_range (vov demo_self) /\
  match vol_paths wide_bm_incr demo_self 0%nat [0.5; 1] with
  | Ok (V, g') =>
      length V = 3%nat /\
      Forall (fun r : list R => length r = n_path demo_self) V /\
      g' = (wide_bm_incr demo_self 0%nat (INR <$> seq 1 2) false).2
  | Raise e => e = IndexError \/ e = ValueError
  end.
Proof.
  split; [apply demo_vov_in_range|].
  apply (vol_paths_outcome nat wide_bm_incr demo_self 0%nat [0.5; 1]).
  apply demo_vov_in_range.
Defined.

Lemma vol_paths_broadcast_witness :
  (forall i, (i < 2)%nat ->
     exists z, (drawn shared_bm_incr demo_self 3%nat 2).1 !! i = Some z
               /\ row_ok demo_self z) /\
  vol_paths shared_bm_incr demo_self 3%nat [0.5; 1]
  = Ok (Np.map2d exp
          (w_rows demo_self (bcast demo_self (drawn shared_bm_incr demo_self 3%nat 2).1) 2),
        (drawn shared_bm_incr demo_self 3%nat 2).2).
Proof.
  assert (H : forall i, (i < 2)%nat ->
     exists z, (drawn shared_bm_incr demo_self 3%nat 2).1 !! i = Some z
               /\ row_ok demo_self z).
  { intros i Hi. unfold drawn, shared_bm_incr. cbn [fst]. rewrite arange_index.
    exists [INR 3]. split; [|right; reflexivity].
    destruct i as [|[|i]]; [reflexivity | reflexivity | lia]. }
  split; [exact H|].
  apply (vol_paths_broadcast nat shared_bm_incr demo_self 3%nat [0.5; 1] H).
Defined.

Lemma vol_paths_short_draw_witness :
  (length (drawn short_bm_incr demo_self 0%nat 1).1 < 1)%nat /\
  Forall (row_ok demo_self) (drawn short_bm_incr demo_self 0%nat 1).1 /\
  vol_paths short_bm_incr demo_self 0%nat [1] = Raise IndexError.
Proof.
  split; [simpl; lia|]. split; [constructor|].
  apply (vol_paths_short_draw nat short_bm_incr demo_self 0%nat [1]);
    [simpl; lia | constructor].
Defined.

Lemma vol_paths_bad_width_witness :
  (drawn wide_bm_incr demo_self 0%nat 1).1 !! 0%nat = Some (replicate 4 (INR 0)) /\
  length (replicate 4 (INR 0)) <> n_path demo_self /\
  length (replicate 4 (INR 0)) <> 1%nat /\
  vol_paths wide_bm_incr demo_self 0%nat [1] = Raise ValueError.
Proof.
  assert (H : (drawn wide_bm_incr demo_self 0%nat 1).1 !! 0%nat
              = Some (replicate 4 (INR 0))).
  { unfold drawn, wide_bm_incr. cbn [fst]. rewrite arange_index. reflexivity. }
  split; [exact H|]. split; [simpl; lia|]. split; [simpl; lia|].
  apply (vol_paths_bad_width nat wide_bm_incr demo_self 0%nat [1] 0
           (replicate 4 (INR 0)));
    [simpl; lia | intros i Hi; lia | exact H | simpl; lia | simpl; lia].
Defined.

Lemma cond_spot_sigma_short_draw_witness :
  vov demo_self_vov0 = 0 /\
  (length (drawn short_bm_incr demo_self_vov0 0%nat (length (demo_tobs demo_self_vov0 1))).1
   < length (demo_tobs demo_self_vov0 1))%nat /\
  cond_spot_sigma short_bm_incr demo_tobs demo_simps demo_self_vov0 0%nat 1
  = Raise IndexError.
Proof.
  split; [reflexivity|]. split; [simpl; lia|].
  apply (cond_spot_sigma_short_draw nat short_bm_incr demo_tobs demo_simps
           demo_self_vov0 0%nat 1); [simpl; lia | constructor].
Defined.

Lemma vol_paths_path_local_witness :
  bm_shape demo_bm_incr demo_self /\
  (forall k, (k < 2)%nat ->
     incr (drawn demo_bm_incr demo_self 0%nat 2).1 k 1
     = incr (drawn demo_bm_incr demo_self 2%nat 2).1 k 1) /\
  exists (V1 V2 : list (list R)) (g1' g2' : nat) (x : R),
    vol_paths demo_bm_incr demo_self 0%nat [0.5; 1] = Ok (V1, g1') /\
    vol_paths demo_bm_incr demo_self 2%nat [0.5; 1] = Ok (V2, g2') /\
    Np.entry V1 2 1 = Some x /\ Np.entry V2 2 1 = Some x.
Proof.
  assert (H : forall k, (k < 2)%nat ->
     incr (drawn demo_bm_incr demo_self 0%nat 2).1 k 1
     = incr (drawn demo_bm_incr demo_self 2%nat 2).1 k 1).
  { intros k Hk. rewrite !demo_drawn. reflexivity. }
  split; [apply demo_bm_shape|]. split; [exact H|].
  apply (vol_paths_path_local nat demo_bm_incr demo_self (demo_bm_shape demo_self)
           0%nat 2%nat [0.5; 1] 2 1); [simpl; lia | simpl; lia | exact H].
Defined.

Lemma vol_paths_no_vov_witness :
  bm_shape demo_bm_incr demo_self_vov0 /\ vov demo_self_vov0 = 0 /\
  exists v : nat -> R,
    forall (g : nat) (tobs : list R),
    exists (V : list (list R)) (g' : nat),
      vol_paths demo_bm_incr demo_self_vov0 g tobs = Ok (V, g') /\
      forall i j, (i <= length tobs)%nat -> (j < 2)%nat ->
                  Np.entry V i j = Some (v i).
Proof.
  split; [apply demo_bm_shape|]. split; [reflexivity|].
  apply (vol_paths_no_vov nat demo_bm_incr demo_self_vov0
           (demo_bm_shape demo_self_vov0)).
  reflexivity.
Defined.

Lemma vol_paths_constant_witness :
  bm_shape demo_bm_incr demo_self_vov0 /\
  vov demo_self_vov0 = 0 /\ 0 < sigma demo_self_vov0 /\ mr demo_self_vov0 = 0 /\
  exists g' : nat,
    vol_paths demo_bm_incr demo_self_vov0 1%nat [0.5; 1]
    = Ok ([[0.2 ^ 2; 0.2 ^ 2]; [0.2 ^ 2; 0.2 ^ 2]; [0.2 ^ 2; 0.2 ^ 2]], g').
Proof.
  split; [apply demo_bm_shape|]. split; [reflexivity|].
  split; [simpl; lra|]. split; [reflexivity|].
  apply (vol_paths_constant nat demo_bm_incr demo_self_vov0
           (demo_bm_shape demo_self_vov0) 1%nat [0.5; 1]);
    [reflexivity | simpl; lra | left; reflexivity].
Defined.

Lemma vol_paths_lognormal_witness :
  bm_shape demo_bm_incr demo_self /\ mr demo_self = 0 /\ 0 < sigma demo_self /\
  exists (V : list (list R)) (g' : nat),
    vol_paths demo_bm_incr demo_self 1%nat [0.5; 1] = Ok (V, g') /\
    Np.entry V 2 0
    = Some (0.2 ^ 2
            * exp (0.01 * sqrt 0.5
                   * sum_incr (drawn demo_bm_incr demo_self 1%nat 2).1 2 0
                   - 0.01 ^ 2 / 2 * 0.5 * INR 2)).
Proof.
  split; [apply demo_bm_shape|]. split; [reflexivity|]. split; [simpl; lra|].
  destruct (vol_paths_lognormal nat demo_bm_incr demo_self
              (demo_bm_shape demo_self) 1%nat [0.5; 1])
    as (V & g' & HV & Hent); [reflexivity | simpl; lra |].
  exists V, g'. split; [exact HV|]. apply (Hent 2%nat 0%nat); simpl; lia.
Defined.

Lemma sigma_cond_bounded_witness :
  bm_shape demo_bm_incr demo_self /\ vov demo_self <> 0 /\ -1 <= rho demo_self <= 1 /\
  exists (L : locals) (fwd sig : list R) (g' : nat),
    cond_spot_sigma demo_bm_incr demo_tobs demo_simps demo_self 0%nat 1
    = Ok ((fwd, sig), g') /\
    forall j sv, int_var L !! j = Some sv -> 0 <= sv ->
      exists s, sig !! j = Some s /\ 0 <= s <= sqrt sv.
Proof.
  split; [apply demo_bm_shape|]. split; [simpl; lra|]. split; [simpl; lra|].
  destruct (sigma_cond_bounded nat demo_bm_incr demo_tobs demo_simps demo_self
              (demo_bm_shape demo_self) 0%nat 1)
    as (L & fwd & sig & g' & _ & Hc & Hb); [simpl; lra | simpl; lra |].
  exists L, fwd, sig, g'. split; [exact Hc | exact Hb].
Defined.

Lemma sigma_cond_perfect_correlation_witness :
  bm_shape demo_bm_incr demo_self_rho1 /\ vov demo_self_rho1 <> 0 /\
  rho demo_self_rho1 = 1 /\
  exists (L : locals) (fwd sig : list R) (g' : nat),
    cond_spot_sigma demo_bm_incr demo_tobs demo_simps demo_self_rho1 0%nat 1
    = Ok ((fwd, sig), g') /\
    forall j sv, int_var L !! j = Some sv -> 0 <= sv -> sig !! j = Some 0.
Proof.
  split; [apply demo_bm_shape|]. split; [simpl; lra|]. split; [reflexivity|].
  destruct (sigma_cond_perfect_correlation nat demo_bm_incr demo_tobs demo_simps
              demo_self_rho1 (demo_bm_shape demo_self_rho1) 0%nat 1)
    as (L & fwd & sig & g' & _ & Hc & Hb); [simpl; lra | left; reflexivity |].
  exists L, fwd, sig, g'. split; [exact Hc | exact Hb].
Defined.

Lemma sigma_cond_square_witness :
  bm_shape demo_bm_incr demo_self /\ vov demo_self <> 0 /\ -1 <= rho demo_self <= 1 /\
  exists (L : locals) (fwd sig : list R) (g' : nat),
    cond_spot_sigma demo_bm_incr demo_tobs demo_simps demo_self 0%nat 1
    = Ok ((fwd, sig), g') /\
    forall j sv, int_var L !! j = Some sv -> 0 <= sv ->
      exists s, sig !! j = Some s /\ s ^ 2 = (1 - rho demo_self ^ 2) * sv.
Proof.
  split; [apply demo_bm_shape|]. split; [simpl; lra|]. split; [simpl; lra|].
  destruct (sigma_cond_square nat demo_bm_incr demo_tobs demo_simps demo_self
              (demo_bm_shape demo_self) 0%nat 1)
    as (L & fwd & sig & g' & _ & Hc & Hb); [simpl; lra | simpl; lra |].
  exists L, fwd, sig, g'. split; [exact Hc | exact Hb].
Defined.

Lemma vol_paths_restart_witness :
  bm_shape demo_bm_incr demo_self /\
  bm_shape demo_bm_incr (with_sigma demo_self (sqrt demo_restart_v)) /\
  (exists V gV, vol_paths demo_bm_incr demo_self 1%nat [0.5; 1] = Ok (V, gV)
                /\ Np.entry V 1 0 = Some demo_restart_v) /\
  exists (V V' : list (list R)) (gV gV' : nat) (x : R),
    vol_paths demo_bm_incr demo_self 1%nat [0.5; 1] = Ok (V, gV) /\
    vol_paths demo_bm_incr (with_sigma demo_self (sqrt demo_restart_v)) 1%nat [1]
    = Ok (V', gV') /\
    Np.entry V 2 0 = Some x /\ Np.entry V' 1 0 = Some x.
Proof.
  assert (Hex : exists V gV, vol_paths demo_bm_incr demo_self 1%nat [0.5; 1] = Ok (V, gV)
                             /\ Np.entry V 1 0 = Some demo_restart_v).
  { unfold vol_paths. rewrite arange_index. do 2 eexists. split; reflexivity. }
  split; [apply demo_bm_shape|]. split; [apply demo_bm_shape|]. split; [exact Hex|].
  apply (vol_paths_restart nat demo_bm_incr demo_self (demo_bm_shape demo_self)
           demo_bm_incr 1%nat 1%nat [0.5; 1] [1] 1 1 0 demo_restart_v);
    [reflexivity | simpl; lia | simpl; lia | exact Hex | apply demo_bm_shape |].
  intros k Hk. rewrite !demo_drawn.
  destruct k as [|k]; [reflexivity | simpl in Hk; lia].
Defined.
